(** * clean_data.py: normalisation and merging of the gate-code dataset

    A shallow embedding of [clean_data.py] and the properties of its
    text normaliser, title-caser, type classifier, gate-token extractor
    and merge engine.

    Python strings are sequences of Unicode code points.  The program
    consults the interpreter's Unicode database ([unicodedata],
    [str.split], [str.lower], [str.upper], [str.isdigit], the regular
    expression class [\d] and [repr]); the database is taken as an
    interface, [UnicodeDB], that fixes what it does on ASCII and leaves
    the rest of the code space open.  Every result below holds for every
    such database, and so for all strings, ASCII or not. *)

From Stdlib Require Import String Ascii DecimalString NArith ZArith Bool Lia List Sorted.
Import ListNotations.

Set Implicit Arguments.
Local Set Warnings "-register-all".
Local Open Scope N_scope.

(** ** Strings *)

Definition char := N.
Definition pystr := list char.

(** A string literal of the source, as its code points; the literals
    of the source are ASCII. *)
Definition lit (s : string) : pystr := map N_of_ascii (list_ascii_of_string s).

Fixpoint str_eqb (a b : pystr) : bool :=
  match a, b with
  | [], [] => true
  | x :: a', y :: b' => N.eqb x y && str_eqb a' b'
  | _, _ => false
  end.

Definition nonempty (s : pystr) : bool :=
  match s with [] => false | _ :: _ => true end.

(** [x in xs] for a set or list of strings. *)
Definition mem (x : pystr) (xs : list pystr) : bool := existsb (str_eqb x) xs.

Definition is_ascii (c : char) : bool := c <? 128.

Definition in_range (lo hi c : char) : bool := (lo <=? c) && (c <=? hi).

(** The ASCII part of the Unicode database. *)
Definition ascii_isspace (c : char) : bool :=
  in_range 9 13 c || in_range 28 31 c || (c =? 32).
Definition ascii_isdigit (c : char) : bool := in_range 48 57 c.
Definition ascii_lower (c : char) : char := if in_range 65 90 c then c + 32 else c.
Definition ascii_upper (c : char) : char := if in_range 97 122 c then c - 32 else c.

(** ** The interpreter's Unicode database

    The functions are those of the interpreter; what they do above
    U+007F is left open.  The laws state what they do on ASCII: an
    ASCII string is its own NFKD form, no ASCII character combines, the
    white space is TAB to CR, FS to US and the space, case mapping
    moves between [A-Z] and [a-z] character by character, and the
    digits are [0-9].  [ascii_db] below is an instance. *)

Class UnicodeDB : Type := {
  (** [unicodedata.normalize("NFKD", s)] *)
  normalize_NFKD : pystr -> pystr;
  (** [unicodedata.combining(ch)], the canonical combining class *)
  combining : char -> N;
  (** white space of [str.split()] and [str.strip()] *)
  py_isspace : char -> bool;
  (** [str.lower()] and [str.upper()]; both may change the length *)
  py_lower : pystr -> pystr;
  py_upper : pystr -> pystr;
  (** the characters [str.isdigit()] accepts *)
  py_isdigit : char -> bool;
  (** the characters the pattern [\d] matches *)
  re_digit : char -> bool;
  (** the characters [repr] leaves unescaped (consulted above U+007F only) *)
  py_isprintable : char -> bool;

  NFKD_ascii : forall s, forallb is_ascii s = true -> normalize_NFKD s = s;
  combining_ascii : forall c, is_ascii c = true -> combining c = 0;
  isspace_ascii : forall c, is_ascii c = true -> py_isspace c = ascii_isspace c;
  lower_ascii : forall s, forallb is_ascii s = true -> py_lower s = map ascii_lower s;
  upper_ascii : forall s, forallb is_ascii s = true -> py_upper s = map ascii_upper s;
  isdigit_ascii : forall c, is_ascii c = true -> py_isdigit c = ascii_isdigit c;
  re_digit_ascii : forall c, is_ascii c = true -> re_digit c = ascii_isdigit c
}.

(** ** Library functions of the interpreter *)

Section Builtins.
Context {U : UnicodeDB}.

(** [sep.join(parts)] *)
Fixpoint join (sep : pystr) (parts : list pystr) : pystr :=
  match parts with
  | [] => []
  | [x] => x
  | x :: rest => x ++ sep ++ join sep rest
  end.

(** The fields of [s] between the characters of class [p], empty
    fields included: [s.split(" ")] is [split_on] at the space. *)
Fixpoint split_on (p : char -> bool) (s : pystr) : list pystr :=
  match s with
  | [] => [[]]
  | c :: s' =>
      if p c then [] :: split_on p s'
      else match split_on p s' with
           | w :: ws => (c :: w) :: ws
           | [] => [[c]]
           end
  end.

Definition is_sp (c : char) : bool := (c =? 32).

(** [s.split(" ")] *)
Definition split_space (s : pystr) : list pystr := split_on is_sp s.

(** [s.split()]: runs of white space separate, no empty field is kept. *)
Definition split_ws (s : pystr) : list pystr :=
  filter nonempty (split_on py_isspace s).

Fixpoint drop_while (p : char -> bool) (s : pystr) : pystr :=
  match s with
  | [] => []
  | c :: s' => if p c then drop_while p s' else s
  end.

Fixpoint take_while (p : char -> bool) (s : pystr) : pystr :=
  match s with
  | [] => []
  | c :: s' => if p c then c :: take_while p s' else []
  end.

(** [s.strip()] *)
Definition strip (s : pystr) : pystr :=
  rev (drop_while py_isspace (rev (drop_while py_isspace s))).

(** [re.sub("[^...]+", " ", s)], [keep] being the characters the
    negated class lists: each maximal run of other characters becomes
    one space. *)
Fixpoint re_sub_aux (keep : char -> bool) (in_run : bool) (s : pystr) : pystr :=
  match s with
  | [] => []
  | c :: s' =>
      if keep c then c :: re_sub_aux keep false s'
      else if in_run then re_sub_aux keep true s'
      else 32 :: re_sub_aux keep true s'
  end.

Definition re_sub_to_space (keep : char -> bool) (s : pystr) : pystr :=
  re_sub_aux keep false s.

(** [w.isdigit()] *)
Definition str_isdigit (w : pystr) : bool := nonempty w && forallb py_isdigit w.

(** [needle in hay] *)
Fixpoint starts_with (needle hay : pystr) : bool :=
  match needle, hay with
  | [], _ => true
  | x :: n', y :: h' => N.eqb x y && starts_with n' h'
  | _ :: _, [] => false
  end.

Fixpoint contains (needle hay : pystr) : bool :=
  starts_with needle hay ||
  match hay with
  | [] => false
  | _ :: h' => contains needle h'
  end.
End Builtins.

(** ** The text normaliser *)

Section Normaliser.
Context {U : UnicodeDB}.

Definition is_lower_az (c : char) : bool := in_range 97 122 c.
Definition is_upper_AZ (c : char) : bool := in_range 65 90 c.
(** the class [a-z0-9] of [NON_ALNUM_TO_SPACE_RE] *)
Definition is_az09 (c : char) : bool := is_lower_az c || ascii_isdigit c.

Definition strip_accents (s : pystr) : pystr :=
  filter (fun ch => combining ch =? 0) (normalize_NFKD s).

Definition clean_spaces (s : pystr) : pystr :=
  strip (join (lit " ") (split_ws s)).

Definition norm_community (name : pystr) : pystr :=
  let base := py_lower (strip_accents (clean_spaces name)) in
  clean_spaces (re_sub_to_space is_az09 base).
End Normaliser.

(** ** The smart title-caser *)

Section TitleCaser.
Context {U : UnicodeDB}.

Definition small : list pystr :=
  map lit ["a";"an";"and";"as";"at";"but";"by";"for";"from";"in";"into";"near";"nor";"of";
           "on";"or";"over";"the";"to";"up";"via";"with"]%string.

(** [[w for w in clean_spaces(s).split(" ") if w]] *)
Definition words_of (s : pystr) : list pystr :=
  filter nonempty (split_space (clean_spaces s)).

(** The test of the second branch: a word of at most three
    characters that equals its upper-case form and has a capital. *)
Definition acronym (w : pystr) : bool :=
  (length w <=? 3)%nat && str_eqb w (py_upper w) && existsb is_upper_AZ w.

(** The body of the loop, for the word [w] at index [i]. *)
Definition title_word (i : nat) (w : pystr) : pystr :=
  if str_isdigit w then w
  else if acronym w then w
  else
    let lower := py_lower w in
    if negb (i =? 0)%nat && mem lower small then lower
    else py_upper (firstn 1 lower) ++ skipn 1 lower.

(** [for i, w in enumerate(words)], from index [i] on. *)
Fixpoint title_words (i : nat) (words : list pystr) : list pystr :=
  match words with
  | [] => []
  | w :: rest => title_word i w :: title_words (S i) rest
  end.

Definition title_case_smart (s : pystr) : pystr :=
  join (lit " ") (title_words 0 (words_of s)).

(** [title_case_smart] without its second branch, the one that keeps
    a short all-capitals word as it is. *)
Definition title_word_no_acronym (i : nat) (w : pystr) : pystr :=
  if str_isdigit w then w
  else
    let lower := py_lower w in
    if negb (i =? 0)%nat && mem lower small then lower
    else py_upper (firstn 1 lower) ++ skipn 1 lower.

Fixpoint title_words_no_acronym (i : nat) (words : list pystr) : list pystr :=
  match words with
  | [] => []
  | w :: rest => title_word_no_acronym i w :: title_words_no_acronym (S i) rest
  end.

Definition title_case_no_acronym (s : pystr) : pystr :=
  join (lit " ") (title_words_no_acronym 0 (words_of s)).
End TitleCaser.

(** ** Insertion-ordered dictionaries

    A Python [dict] keeps its keys in the order of their first
    insertion, and the program's output order depends on it: a
    dictionary is the list of its items, keys distinct. *)

Section OrderedDict.
Variable V : Type.

Definition odict := list (pystr * V).

(** [d.get(k)] *)
Fixpoint od_get (k : pystr) (d : odict) : option V :=
  match d with
  | [] => None
  | (k', v) :: d' => if str_eqb k' k then Some v else od_get k d'
  end.

(** [d.get(k, default)] *)
Definition od_get_default (k : pystr) (default : V) (d : odict) : V :=
  match od_get k d with Some v => v | None => default end.

(** [d.setdefault(k, v)]; also what reading [d[k]] does to a
    [defaultdict] whose factory gives [v]. *)
Fixpoint od_setdefault (k : pystr) (v : V) (d : odict) : odict :=
  match d with
  | [] => [(k, v)]
  | (k', v') :: d' =>
      if str_eqb k' k then d else (k', v') :: od_setdefault k v d'
  end.

(** An update in place of the value stored under [k]. *)
Fixpoint od_update (k : pystr) (f : V -> V) (d : odict) : odict :=
  match d with
  | [] => []
  | (k', v') :: d' =>
      if str_eqb k' k then (k', f v') :: d' else (k', v') :: od_update k f d'
  end.

(** [d[k] = v] *)
Fixpoint od_set (k : pystr) (v : V) (d : odict) : odict :=
  match d with
  | [] => [(k, v)]
  | (k', v') :: d' =>
      if str_eqb k' k then (k', v) :: d' else (k', v') :: od_set k v d'
  end.
End OrderedDict.

(** ** Address keys *)

Section AddressKey.
Context {U : UnicodeDB}.

Definition abbrev : odict pystr :=
  map (fun kv => (lit (fst kv), lit (snd kv)))
    [("n","north");("s","south");("e","east");("w","west");
     ("ne","northeast");("nw","northwest");("se","southeast");("sw","southwest");
     ("rd","road");("st","street");("ave","avenue");("av","avenue");("blvd","boulevard");
     ("dr","drive");("ln","lane");("pl","place");("ct","court");("cir","circle");("trl","trail");
     ("pkwy","parkway");("hwy","highway");("mt","mount");("ste","suite");("apt","apartment");
     ("apts","apartments");("unit","unit");("bldg","building")]%string.

Definition expand_abbrev_tokens (tokens : list pystr) : list pystr :=
  map (fun t => od_get_default (py_lower t) (py_lower t) abbrev) tokens.

Definition norm_address (addr : pystr) : pystr :=
  let base := py_lower (strip_accents (clean_spaces addr)) in
  let cleaned := clean_spaces (re_sub_to_space is_az09 base) in
  let toks := filter nonempty (split_space cleaned) in
  join (lit " ") (expand_abbrev_tokens toks).
End AddressKey.

(** ** Gate tokens *)

Section GateTokens.
Context {U : UnicodeDB}.

(** [re.compile(r"\d+").findall(s)]: at each position the pattern is
    tried; it matches the longest run of digits that starts there, and
    the search goes on after the match, or one character further when
    there is none.  The search needs no more steps than [s] has
    characters. *)
Fixpoint findall_digits_from (steps : nat) (s : pystr) : list pystr :=
  match steps with
  | O => []
  | S steps' =>
      match s with
      | [] => []
      | c :: s' =>
          if re_digit c
          then take_while re_digit s :: findall_digits_from steps' (drop_while re_digit s)
          else findall_digits_from steps' s'
      end
  end.

Definition findall_digits (s : pystr) : list pystr :=
  findall_digits_from (length s) s.

Definition extract_gate_tokens (raw : pystr) : list pystr := findall_digits raw.

(** The loop of [uniq_preserve], [seen] being the set built so far. *)
Fixpoint uniq_from (seen : list pystr) (items : list pystr) : list pystr :=
  match items with
  | [] => []
  | x :: rest =>
      if mem x seen then uniq_from seen rest
      else x :: uniq_from (x :: seen) rest
  end.

Definition uniq_preserve (items : list pystr) : list pystr := uniq_from [] items.
End GateTokens.

(** ** Majority vote *)

(** [Counter(values)]: one count per distinct value, in the order the
    values were first seen. *)
Definition counter_add (c : odict nat) (x : pystr) : odict nat :=
  od_update x S (od_setdefault x O c).

Definition Counter (values : list pystr) : odict nat :=
  fold_left counter_add values [].

(** [max(items, key=count)], which [most_common(1)] comes down to: the
    running best gives way to a strictly larger count only. *)
Fixpoint max_count (best : pystr * nat) (items : odict nat) : pystr * nat :=
  match items with
  | [] => best
  | it :: rest => if (snd best <? snd it)%nat then max_count it rest else max_count best rest
  end.

Definition most_common (values : list pystr) : pystr :=
  match Counter (filter nonempty values) with
  | [] => []
  | first :: rest => fst (max_count first rest)
  end.

(** [a or b] on strings *)
Definition str_or (a b : pystr) : pystr := if nonempty a then a else b.

(** ** The type classifier *)

Section TypeClassifier.
Context {U : UnicodeDB}.

(** The key [k] that [norm_type] tests its rules on. *)
Definition type_key (t : pystr) : pystr :=
  let raw := py_lower (clean_spaces t) in
  clean_spaces (re_sub_to_space is_lower_az raw).

Definition norm_type (t : pystr) : pystr :=
  let k := type_key t in
  if negb (nonempty k) then lit "Unknown"
  else if mem k (map lit ["apt";"apts";"apartment";"apartments"]%string)
          || contains (lit "apartment") k then lit "Apartments"
  else if mem k (map lit ["residential";"residence";"home";"homes";"housing"]%string)
          || contains (lit "residential") k then lit "Residential"
  else if mem k (map lit ["business";"businesses";"commercial"]%string)
          || contains (lit "business") k || contains (lit "commercial") k then lit "Businesses"
  else if contains (lit "student") k then lit "Residential"
  else title_case_smart k.
End TypeClassifier.

(** ** Documents *)

(** What [json.load] returns.  A float is kept as the text [str] gives
    for it, which is all the program can observe of it: that text, and
    whether the number is zero. *)
Inductive json : Type :=
| JNull
| JBool (b : bool)
| JInt (z : Z)
| JFloat (text : pystr)
| JStr (s : pystr)
| JList (items : list json)
| JDict (items : list (pystr * json)).

Inductive exn : Type := AttributeError.

Inductive result (A : Type) : Type :=
| Ok (a : A)
| Raise (e : exn).
Arguments Ok {A} a.
Arguments Raise {A} e.

Record agg := { addresses : list pystr; types : list pystr; gates : list pystr }.

Record cleaned_entry := { ce_address : pystr; ce_gate : pystr; ce_type : pystr }.

Record cleaned_payload := { out_meta : json; out_groups : odict (list cleaned_entry) }.

(** The truth value of [v], as [groups or {}] tests it. *)
Definition truthy (v : json) : bool :=
  match v with
  | JNull => false
  | JBool b => b
  | JInt z => negb (z =? 0)%Z
  | JFloat text => negb (mem text (map lit ["0.0";"-0.0"]%string))
  | JStr s => nonempty s
  | JList items => match items with [] => false | _ => true end
  | JDict items => match items with [] => false | _ => true end
  end.

(** [isinstance(e, dict)], giving the items. *)
Definition as_dict (v : json) : option (odict json) :=
  match v with JDict items => Some items | _ => None end.

(** [[e for e in entries if isinstance(e, dict)]] *)
Fixpoint dict_entries (entries : list json) : list (odict json) :=
  match entries with
  | [] => []
  | e :: rest =>
      match as_dict e with
      | Some d => d :: dict_entries rest
      | None => dict_entries rest
      end
  end.

Section Repr.
Context {U : UnicodeDB}.

Definition hex_digit (d : N) : char := if d <? 10 then 48 + d else 87 + d.

Fixpoint hex_fixed (width : nat) (c : N) : pystr :=
  match width with
  | O => []
  | S w => hex_fixed w (c / 16) ++ [hex_digit (c mod 16)]
  end.

(** One character of [repr(s)] between the quotes. *)
Definition repr_char (quote c : char) : pystr :=
  if (c =? quote) || (c =? 92) then [92; c]
  else if c =? 9 then lit "\t"
  else if c =? 10 then lit "\n"
  else if c =? 13 then lit "\r"
  else if (c <? 32) || (c =? 127) then lit "\x" ++ hex_fixed 2 c
  else if c <? 127 then [c]
  else if py_isprintable c then [c]
  else if c <=? 255 then lit "\x" ++ hex_fixed 2 c
  else if c <=? 65535 then lit "\u" ++ hex_fixed 4 c
  else lit "\U" ++ hex_fixed 8 c.

(** [repr(s)] for a string: single quotes, unless [s] has a single
    quote and no double quote. *)
Definition repr_str (s : pystr) : pystr :=
  let quote := if existsb (N.eqb 39) s && negb (existsb (N.eqb 34) s) then 34 else 39 in
  [quote] ++ flat_map (repr_char quote) s ++ [quote].

Definition str_of_int (z : Z) : pystr := lit (NilZero.string_of_int (Z.to_int z)).

Fixpoint py_repr (v : json) : pystr :=
  match v with
  | JNull => lit "None"
  | JBool true => lit "True"
  | JBool false => lit "False"
  | JInt z => str_of_int z
  | JFloat text => text
  | JStr s => repr_str s
  | JList items => lit "[" ++ join (lit ", ") (map py_repr items) ++ lit "]"
  | JDict items =>
      lit "{" ++ join (lit ", ")
                   (map (fun kv => repr_str (fst kv) ++ lit ": " ++ py_repr (snd kv)) items)
              ++ lit "}"
  end.

(** [str(v)] *)
Definition py_str (v : json) : pystr :=
  match v with
  | JStr s => s
  | _ => py_repr v
  end.
End Repr.

(** ** The merge engine *)

Section MergeEngine.
Context {U : UnicodeDB}.

(** [clean_spaces(str(e.get(name, default)))], the default being the
    empty string *)
Definition field (name : string) (e : odict json) : pystr :=
  clean_spaces (py_str (od_get_default (lit name) (JStr []) e)).

Definition empty_agg : agg := {| addresses := []; types := []; gates := [] |}.

(** The body of the loop over the entries of a community. *)
Definition by_addr_step (by_addr : odict agg) (e : odict json) : odict agg :=
  let address := field "address" e in
  let gate := field "gate" e in
  let typ := norm_type (py_str (od_get_default (lit "type") (JStr []) e)) in
  let addr_norm := norm_address address in
  od_update addr_norm
    (fun a => {| addresses := addresses a ++ [address];
                 types := types a ++ [typ];
                 gates := gates a ++ [gate] |})
    (od_setdefault addr_norm empty_agg by_addr).

(** The entry written for the address group [a] of key [addr_norm]. *)
Definition aggregate (addr_norm : pystr) (a : agg) : cleaned_entry :=
  let best_addr := str_or (most_common (addresses a)) (title_case_smart addr_norm) in
  let best_type := str_or (most_common (types a)) (lit "Unknown") in
  let gate_tokens := uniq_preserve (flat_map extract_gate_tokens (gates a)) in
  {| ce_address := best_addr; ce_gate := join (lit " ") gate_tokens; ce_type := best_type |}.

Definition clean_entries (entries : list (odict json)) : list cleaned_entry :=
  let by_addr := fold_left by_addr_step entries [] in
  map (fun kv => aggregate (fst kv) (snd kv)) by_addr.

(** The body of the first loop of [clean_groups]. *)
Definition bucket_step (buckets : odict (list (odict json))) (item : pystr * json)
  : odict (list (odict json)) :=
  let comm_norm := norm_community (py_str (JStr (fst item))) in
  match snd item with
  | JList entries =>
      od_update comm_norm (fun b => b ++ dict_entries entries)
        (od_setdefault comm_norm [] buckets)
  | _ => buckets
  end.

(** The body of its second loop. *)
Definition out_step (out : odict (list cleaned_entry)) (bucket : pystr * list (odict json))
  : odict (list cleaned_entry) :=
  od_set (title_case_smart (fst bucket)) (clean_entries (snd bucket)) out.

Definition clean_groups (groups : json) : result (odict (list cleaned_entry)) :=
  match (if truthy groups then groups else JDict []) with
  | JDict items =>
      let buckets := fold_left bucket_step items [] in
      Ok (fold_left out_step buckets [])
  | _ => Raise AttributeError
  end.

(** [main] between reading the input and writing the output. *)
Definition process (payload : json) : result cleaned_payload :=
  match payload with
  | JDict top =>
      let groups := od_get_default (lit "groups") (JDict []) top in
      match clean_groups groups with
      | Ok cleaned =>
          Ok {| out_meta := od_get_default (lit "meta") (JDict []) top;
                out_groups := cleaned |}
      | Raise e => Raise e
      end
  | _ => Raise AttributeError
  end.
End MergeEngine.

(** ** The ASCII database

    The smallest database: nothing above U+007F decomposes, combines,
    is white space, a digit or a cased letter.  The model runs on it. *)

Program Instance ascii_db : UnicodeDB := {|
  normalize_NFKD := fun s => s;
  combining := fun _ => 0;
  py_isspace := ascii_isspace;
  py_lower := map ascii_lower;
  py_upper := map ascii_upper;
  py_isdigit := ascii_isdigit;
  re_digit := ascii_isdigit;
  py_isprintable := fun _ => true
|}.

(** A database that also knows the acute accent on e: U+00E9 and
    U+00C9 decompose into the letter and U+0301, which combines. *)
Definition decompose_e_acute (c : char) : pystr :=
  if c =? 233 then [101; 769] else if c =? 201 then [69; 769] else [c].

Program Definition accent_db : UnicodeDB := {|
  normalize_NFKD := flat_map decompose_e_acute;
  combining := fun c => if c =? 769 then 230 else 0;
  py_isspace := ascii_isspace;
  py_lower := map ascii_lower;
  py_upper := map ascii_upper;
  py_isdigit := ascii_isdigit;
  re_digit := ascii_isdigit;
  py_isprintable := fun _ => true
|}.
Next Obligation.
  induction s as [|c s IH]; [reflexivity|].
  simpl in H. apply andb_true_iff in H as [Hc Hs].
  simpl. rewrite (IH Hs). unfold decompose_e_acute, is_ascii in *.
  apply N.ltb_lt in Hc.
  destruct (N.eqb_spec c 233); [lia|]. destruct (N.eqb_spec c 201); [lia|]. reflexivity.
Qed.
Next Obligation.
  unfold is_ascii in H. apply N.ltb_lt in H.
  destruct (N.eqb_spec c 769); [lia | reflexivity].
Qed.


(** * Specifications

    The notions the properties are stated with, and the documents of
    the scenarios. *)

(** ** Tokens and keys *)

(** No character of [w] is a separator of the class [p]. *)
Definition sep_free (p : char -> bool) (w : pystr) : bool :=
  forallb (fun c => negb (p c)) w.

(** A token: a non-empty word without a separator. *)
Definition token (p : char -> bool) (w : pystr) : bool := nonempty w && sep_free p w.

(** A key token is a non-empty word over the kept class; a string is
    key-shaped when it is key tokens joined by single spaces. *)
Definition key_token (keep : char -> bool) (t : pystr) : bool :=
  nonempty t && forallb keep t.

Definition key_shaped (keep : char -> bool) (k : pystr) : Prop :=
  exists toks, forallb (key_token keep) toks = true /\ k = join [32] toks.

(** The keys of a dictionary, in its order. *)
Definition keys (V : Type) (d : odict V) : list pystr := map fst d.

(** ** Buckets and address groups *)

(** The dict-shaped entries a community value contributes, when the
    value is a list. *)
Definition contribution (v : json) : option (list (odict json)) :=
  match v with
  | JList entries => Some (dict_entries entries)
  | _ => None
  end.

(** The entries a community value adds to its bucket. *)
Definition entries_of (v : json) : list (odict json) :=
  match contribution v with Some es => es | None => [] end.

Section Vocabulary.
Context {U : UnicodeDB}.

(** What the spec says a bucket holds: the dict-shaped entries of
    every list-valued community whose name normalises to [k], in the
    order of the document. *)
Definition merged_entries (k : pystr) (items : odict json) : list (odict json) :=
  flat_map (fun item =>
              if str_eqb (norm_community (fst item)) k
              then entries_of (snd item)
              else []) items.

(** Some list-valued community normalises to [k]. *)
Definition has_bucket (k : pystr) (items : odict json) : bool :=
  existsb (fun item =>
             str_eqb (norm_community (fst item)) k &&
             match contribution (snd item) with Some _ => true | None => false end) items.

(** The community written for a bucket: its display name and its
    cleaned entries. *)
Definition display (bucket : pystr * list (odict json)) : pystr * list cleaned_entry :=
  (title_case_smart (fst bucket), clean_entries (snd bucket)).

(** The three values the loop reads from an entry. *)
Definition entry_address (e : odict json) : pystr := field "address" e.
Definition entry_gate (e : odict json) : pystr := field "gate" e.
Definition entry_type (e : odict json) : pystr :=
  norm_type (py_str (od_get_default (lit "type") (JStr []) e)).

(** The entries of a community that fall under the address key [k], in
    the order of the bucket. *)
Definition group_members (k : pystr) (entries : list (odict json)) : list (odict json) :=
  filter (fun e => str_eqb (norm_address (entry_address e)) k) entries.

(** The lists of [a] with those of the entries [es] appended. *)
Definition extend (a : agg) (es : list (odict json)) : agg :=
  {| addresses := addresses a ++ map entry_address es;
     types := types a ++ map entry_type es;
     gates := gates a ++ map entry_gate es |}.

(** What the spec says an address group holds: the parallel lists of
    the values of its members. *)
Definition group_of (k : pystr) (entries : list (odict json)) : agg :=
  extend empty_agg (group_members k entries).

(** ** Runs of digits *)

Definition no_digit (s : pystr) : bool := forallb (fun c => negb (re_digit c)) s.

(** [s] is over, or goes on with a character that is no digit. *)
Definition stops (s : pystr) : Prop :=
  match s with [] => True | c :: _ => re_digit c = false end.

(** [digit_runs s toks]: [toks] are the maximal runs of digits of [s],
    from left to right.  Each run is non-empty, all digits, preceded by
    a gap without digits (or by the start of the string) and followed
    by a character that is no digit (or by the end). *)
Inductive digit_runs : pystr -> list pystr -> Prop :=
| runs_none gap :
    no_digit gap = true -> digit_runs gap []
| runs_next gap run rest toks :
    no_digit gap = true ->
    nonempty run = true -> forallb re_digit run = true ->
    stops rest ->
    digit_runs rest toks ->
    digit_runs (gap ++ run ++ rest) (run :: toks).

End Vocabulary.

(** ** First positions and majority *)

(** The position at which [x] is first met in [l] (its length when [x]
    is not in [l]). *)
Fixpoint index_of (x : pystr) (l : list pystr) : nat :=
  match l with
  | [] => O
  | y :: rest => if str_eqb y x then O else S (index_of x rest)
  end.

(** How often [x] occurs in [l]. *)
Definition count (x : pystr) (l : list pystr) : nat := length (filter (str_eqb x) l).

(** [r] wins the vote over [values]: it is a non-empty value of the
    list, no non-empty value is more frequent, and every other value as
    frequent is first met later in the list. *)
Definition majority_winner (values : list pystr) (r : pystr) : Prop :=
  r <> [] /\ In r values /\
  forall v, v <> [] -> In v values ->
    (count v values <= count r values)%nat /\
    (count v values = count r values -> v <> r ->
     (index_of r values < index_of v values)%nat).

(** ** Keyword families of the type classifier *)

(** [w] occurs in [k]. *)
Definition occurs_in (w k : pystr) : Prop := exists pre post, k = pre ++ w ++ post.

Definition apartment_family (k : pystr) : Prop :=
  In k (map lit ["apt";"apts";"apartment";"apartments"]%string) \/
  occurs_in (lit "apartment") k.

Definition residential_family (k : pystr) : Prop :=
  In k (map lit ["residential";"residence";"home";"homes";"housing"]%string) \/
  occurs_in (lit "residential") k.

Definition business_family (k : pystr) : Prop :=
  In k (map lit ["business";"businesses";"commercial"]%string) \/
  occurs_in (lit "business") k \/ occurs_in (lit "commercial") k.

(** ** Documents of the scenarios *)

(** A raw entry with its three fields given as strings. *)
Definition raw_entry (address gate type : string) : json :=
  JDict [(lit "address", JStr (lit address));
         (lit "gate", JStr (lit gate));
         (lit "type", JStr (lit type))].

(** The document of the end-to-end scenario. *)
Definition oak_hills_doc : json :=
  JDict [(lit "groups",
          JDict [(lit "Oak Hills",
                  JList [raw_entry "100 N Main St" "1234" "apt";
                         raw_entry "100 North Main Street" "1234,5678" "Apartment"])])].

(** A document whose [groups] is a non-empty list. *)
Definition groups_list_doc : json := JDict [(lit "groups", JList [JInt 1])].

(** A document with an integer for a gate. *)
Definition int_gate_doc : json :=
  JDict [(lit "Oak Hills",
          JList [JDict [(lit "address", JStr (lit "100 N Main St"));
                        (lit "gate", JInt 1234);
                        (lit "type", JStr (lit "apt"))]])].

(** Two spellings of one community. *)
Definition oak_spellings : odict json :=
  [(lit "Oak Hills", JList [raw_entry "1 Elm St" "11" "home"]);
   (lit "oak   hills", JList [raw_entry "2 Elm St" "22" "home"])].

(** ** Runs of kept characters *)

(** The maximal runs of characters of the class [keep] in [s], from
    left to right. *)
Definition runs (keep : char -> bool) (s : pystr) : list pystr :=
  filter nonempty (split_on (fun c => negb (keep c)) s).

(** The letters and digits of ASCII. *)
Definition is_alnum (c : char) : bool := is_az09 c || is_upper_AZ c.

Section ClassifierVocabulary.
Context {U : UnicodeDB}.

(** The rules of [norm_type] on a key that is already computed. *)
Definition classify_key (k : pystr) : pystr :=
  if negb (nonempty k) then lit "Unknown"
  else if mem k (map lit ["apt";"apts";"apartment";"apartments"]%string)
          || contains (lit "apartment") k then lit "Apartments"
  else if mem k (map lit ["residential";"residence";"home";"homes";"housing"]%string)
          || contains (lit "residential") k then lit "Residential"
  else if mem k (map lit ["business";"businesses";"commercial"]%string)
          || contains (lit "business") k || contains (lit "commercial") k then lit "Businesses"
  else if contains (lit "student") k then lit "Residential"
  else title_case_smart k.
End ClassifierVocabulary.

(** The four fixed categories of the type classifier. *)
Definition categories : list pystr :=
  map lit ["Unknown"; "Apartments"; "Residential"; "Businesses"]%string.

Section GateVocabulary.
Context {U : UnicodeDB}.

(** A gate token: a non-empty string of digits. *)
Definition digit_token (t : pystr) : bool := nonempty t && forallb re_digit t.
End GateVocabulary.

Section PipelineVocabulary.
Context {U : UnicodeDB}.

(** The address key of an entry. *)
Definition address_key (e : odict json) : pystr := norm_address (entry_address e).

(** The address keys of a community, each once, in the order first met. *)
Definition address_keys (entries : list (odict json)) : list pystr :=
  uniq_preserve (map address_key entries).

(** The community value is a list. *)
Definition list_valued (item : pystr * json) : bool :=
  match contribution (snd item) with Some _ => true | None => false end.

(** The community keys of a document, each once, in the order first
    met, of the communities whose value is a list. *)
Definition community_keys (items : odict json) : list pystr :=
  uniq_preserve (map (fun item => norm_community (fst item)) (filter list_valued items)).
End PipelineVocabulary.

(** ** The output as a document *)

(** The entry the program writes, as the dictionary it is. *)
Definition entry_dict (out : cleaned_entry) : odict json :=
  [(lit "address", JStr (ce_address out));
   (lit "gate", JStr (ce_gate out));
   (lit "type", JStr (ce_type out))].

(** The communities the program writes, as the [groups] of a document. *)
Definition groups_json (out : odict (list cleaned_entry)) : json :=
  JDict (map (fun c => (fst c, JList (map (fun e => JDict (entry_dict e)) (snd c)))) out).

(** The document the program writes. *)
Definition payload_json (res : cleaned_payload) : json :=
  JDict [(lit "meta", out_meta res); (lit "groups", groups_json (out_groups res))].

(** The list-valued communities of a document, each with its
    dict-shaped entries only. *)
Definition well_formed_part (items : odict json) : odict json :=
  map (fun item => (fst item, JList (map JDict (entries_of (snd item)))))
      (filter list_valued items).

Section OutputVocabulary.
Context {U : UnicodeDB}.

(** A settled entry: its address has single spaces and no white space
    at its ends, its gate is distinct tokens of digits joined by single
    spaces, and its type is one the classifier gives back as it is. *)
Definition settled (out : cleaned_entry) : Prop :=
  clean_spaces (ce_address out) = ce_address out /\
  (exists toks,
      NoDup toks /\ forallb digit_token toks = true /\
      ce_gate out = join (lit " ") toks) /\
  norm_type (ce_type out) = ce_type out.
End OutputVocabulary.

(** * Properties *)

(** ** Equality and membership of strings *)

Lemma str_eqb_eq (a b : pystr) : str_eqb a b = true <-> a = b.
Proof.
  revert b; induction a as [|x a IH]; intros [|y b]; simpl; split; intro H;
    try reflexivity; try discriminate.
  - apply andb_true_iff in H as [Hx Hr].
    apply N.eqb_eq in Hx. apply IH in Hr. now subst.
  - injection H as -> ->. rewrite N.eqb_refl. simpl. now apply IH.
Qed.

Lemma str_eqb_refl (a : pystr) : str_eqb a a = true.
Proof. now apply str_eqb_eq. Qed.

Lemma str_eqb_neq (a b : pystr) : str_eqb a b = false <-> a <> b.
Proof.
  split.
  - intros H E. apply str_eqb_eq in E. congruence.
  - intros H. destruct (str_eqb a b) eqn:E; [|reflexivity].
    apply str_eqb_eq in E. contradiction.
Qed.

Lemma str_eqb_sym (a b : pystr) : str_eqb a b = str_eqb b a.
Proof.
  destruct (str_eqb a b) eqn:E.
  - apply str_eqb_eq in E. subst. symmetry. apply str_eqb_refl.
  - symmetry. apply str_eqb_neq. apply str_eqb_neq in E. congruence.
Qed.

Lemma str_eq_dec (a b : pystr) : {a = b} + {a <> b}.
Proof.
  destruct (str_eqb a b) eqn:E.
  - left. now apply str_eqb_eq.
  - right. now apply str_eqb_neq.
Defined.

Lemma mem_In (x : pystr) (xs : list pystr) : mem x xs = true <-> In x xs.
Proof.
  unfold mem. rewrite existsb_exists. split.
  - intros [y [Hy E]]. apply str_eqb_eq in E. now subst.
  - intros H. exists x. split; [assumption | apply str_eqb_refl].
Qed.

Lemma mem_false (x : pystr) (xs : list pystr) : mem x xs = false <-> ~ In x xs.
Proof.
  split.
  - intros H Hin. apply mem_In in Hin. congruence.
  - intros H. destruct (mem x xs) eqn:E; [|reflexivity].
    apply mem_In in E. contradiction.
Qed.

Lemma nonempty_true (s : pystr) : nonempty s = true <-> s <> [].
Proof. destruct s; simpl; split; congruence. Qed.

(** ** Character classes *)

Ltac char_cases :=
  unfold is_az09, is_lower_az, is_upper_AZ, ascii_isdigit, ascii_isspace,
    ascii_lower, ascii_upper, is_ascii, is_sp, in_range in *;
  repeat match goal with
    | H : context [N.leb ?a ?b] |- _ => destruct (N.leb_spec a b); simpl in *
    | H : context [N.ltb ?a ?b] |- _ => destruct (N.ltb_spec a b); simpl in *
    | H : context [N.eqb ?a ?b] |- _ => destruct (N.eqb_spec a b); simpl in *
    | |- context [N.leb ?a ?b] => destruct (N.leb_spec a b); simpl in *
    | |- context [N.ltb ?a ?b] => destruct (N.ltb_spec a b); simpl in *
    | |- context [N.eqb ?a ?b] => destruct (N.eqb_spec a b); simpl in *
    end;
  simpl in *; try reflexivity; try discriminate; try lia.

Lemma az09_ascii c : is_az09 c = true -> is_ascii c = true.
Proof. intros H. char_cases. Qed.

Lemma az09_not_space c : is_az09 c = true -> ascii_isspace c = false.
Proof. intros H. char_cases. Qed.

Lemma az09_not_sp c : is_az09 c = true -> is_sp c = false.
Proof. intros H. char_cases. Qed.

Lemma az09_lower c : is_az09 c = true -> ascii_lower c = c.
Proof. intros H. char_cases. Qed.

Lemma az09_not_upper c : is_az09 c = true -> is_upper_AZ c = false.
Proof. intros H. char_cases. Qed.

Lemma az09_lower_upper c : is_az09 c = true -> ascii_lower (ascii_upper c) = c.
Proof. intros H. char_cases. Qed.

Lemma az_az09 c : is_lower_az c = true -> is_az09 c = true.
Proof. intros H. unfold is_az09. now rewrite H. Qed.

Lemma ascii_lower_ascii c : is_ascii c = true -> is_ascii (ascii_lower c) = true.
Proof. intros H. char_cases. Qed.

Lemma ascii_upper_ascii c : is_ascii c = true -> is_ascii (ascii_upper c) = true.
Proof. intros H. char_cases. Qed.

Lemma lit_space : lit " " = [32].
Proof. reflexivity. Qed.

Lemma forallb_imp (A : Type) (p q : A -> bool) (l : list A) :
  (forall x, p x = true -> q x = true) -> forallb p l = true -> forallb q l = true.
Proof.
  intros H. rewrite !forallb_forall. auto.
Qed.

Lemma map_id_on (A : Type) (f : A -> A) (p : A -> bool) (l : list A) :
  (forall x, p x = true -> f x = x) -> forallb p l = true -> map f l = l.
Proof.
  intros H. induction l as [|x l IH]; simpl; [reflexivity|].
  intros Hl. apply andb_true_iff in Hl as [Hx Hl].
  now rewrite H, IH.
Qed.

(** ** Splitting and joining *)

Section SplitJoin.
Variable p : char -> bool.

Lemma split_on_not_nil s : split_on p s <> [].
Proof.
  destruct s as [|c s]; simpl; [discriminate|].
  destruct (p c); [discriminate|].
  destruct (split_on p s); discriminate.
Qed.

Lemma split_on_free_app t r :
  sep_free p t = true ->
  split_on p (t ++ r) =
  match split_on p r with
  | w :: ws => (t ++ w) :: ws
  | [] => [t]
  end.
Proof.
  induction t as [|c t IH]; simpl; intros H.
  - destruct (split_on p r) eqn:E; [|reflexivity].
    now apply split_on_not_nil in E.
  - apply andb_true_iff in H as [Hc Ht].
    apply negb_true_iff in Hc. rewrite Hc, (IH Ht).
    destruct (split_on p r) eqn:E; [|reflexivity].
    now apply split_on_not_nil in E.
Qed.

Lemma split_on_fields (q : char -> bool) s :
  forallb q s = true ->
  Forall (fun w => forallb q w = true /\ sep_free p w = true) (split_on p s).
Proof.
  induction s as [|c s IH]; simpl; intros H.
  - constructor; [split; reflexivity | constructor].
  - apply andb_true_iff in H as [Hc Hs]. specialize (IH Hs).
    destruct (p c) eqn:Hp.
    + constructor; [split; reflexivity | assumption].
    + destruct (split_on p s) as [|w ws]; [repeat constructor; simpl; now rewrite ?Hc, ?Hp|].
      inversion IH as [|? ? [Hq Hf] Hws]; subst.
      constructor; [|assumption].
      unfold sep_free in *. simpl. now rewrite Hc, Hq, Hp, Hf.
Qed.

Lemma split_fields_tokens (q : char -> bool) s :
  forallb q s = true ->
  Forall (fun w => forallb q w = true /\ token p w = true)
         (filter nonempty (split_on p s)).
Proof.
  intros H. apply Forall_forall. intros w Hw.
  apply filter_In in Hw as [Hin Hne].
  pose proof (split_on_fields q s H) as F.
  rewrite Forall_forall in F. destruct (F w Hin) as [Hq Hf].
  unfold token. now rewrite Hne, Hf.
Qed.

Lemma split_on_join c toks :
  p c = true ->
  forallb (token p) toks = true ->
  filter nonempty (split_on p (join [c] toks)) = toks.
Proof.
  intros Hc. induction toks as [|t toks IH]; [reflexivity|].
  intros H. simpl in H. apply andb_true_iff in H as [Ht Hts].
  unfold token in Ht. apply andb_true_iff in Ht as [Hne Hfree].
  destruct toks as [|t' toks].
  - simpl. rewrite <- (app_nil_r t) at 1.
    rewrite split_on_free_app by assumption. simpl.
    rewrite app_nil_r, Hne. reflexivity.
  - change (join [c] (t :: t' :: toks)) with (t ++ c :: join [c] (t' :: toks)).
    rewrite split_on_free_app by assumption.
    simpl split_on at 1. rewrite Hc. rewrite app_nil_r.
    simpl filter. rewrite Hne. f_equal. now apply IH.
Qed.

Lemma drop_while_id s :
  match s with [] => True | c :: _ => p c = false end -> drop_while p s = s.
Proof. destruct s as [|c s]; simpl; [reflexivity|]. now intros ->. Qed.

Lemma join_snoc sep l x :
  l <> [] -> join sep (l ++ [x]) = join sep l ++ sep ++ x.
Proof.
  induction l as [|y l IH]; [congruence|]. intros _.
  destruct l as [|z l]; [reflexivity|].
  change (join sep ((y :: z :: l) ++ [x])) with (y ++ sep ++ join sep ((z :: l) ++ [x])).
  rewrite IH by discriminate.
  change (join sep (y :: z :: l)) with (y ++ sep ++ join sep (z :: l)).
  now rewrite <- !app_assoc.
Qed.

Lemma rev_join sep l :
  rev (join sep l) = join (rev sep) (map (@rev char) (rev l)).
Proof.
  induction l as [|x l IH]; [reflexivity|].
  destruct l as [|y l]; [reflexivity|].
  change (join sep (x :: y :: l)) with (x ++ sep ++ join sep (y :: l)).
  rewrite !rev_app_distr, IH, <- app_assoc.
  change (rev (x :: y :: l)) with (rev (y :: l) ++ [x]).
  rewrite map_app. change (map (@rev char) [x]) with [rev x].
  rewrite join_snoc; [reflexivity|].
  intros E. apply (f_equal (@length _)) in E.
  rewrite length_map, length_rev in E. discriminate.
Qed.

Lemma join_head toks c :
  forallb (token p) toks = true ->
  match join [c] toks with [] => True | x :: _ => p x = false end.
Proof.
  destruct toks as [|t toks]; [exact (fun _ => I)|].
  simpl forallb. intros H. apply andb_true_iff in H as [Ht _].
  unfold token, sep_free in Ht. destruct t as [|x t]; [discriminate|].
  simpl in Ht. apply andb_true_iff in Ht as [Hx _]. apply negb_true_iff in Hx.
  destruct toks; simpl; assumption.
Qed.

Lemma token_rev t : token p (rev t) = token p t.
Proof.
  unfold token, sep_free. f_equal.
  - destruct t as [|x t]; [reflexivity|]. simpl.
    destruct (rev t); reflexivity.
  - destruct (forallb _ t) eqn:E.
    + rewrite forallb_forall in *. intros x Hx. apply E. now apply in_rev.
    + destruct (forallb _ (rev t)) eqn:E'; [|reflexivity].
      rewrite <- E. symmetry. rewrite forallb_forall in *.
      intros x Hx. apply E'. now apply -> in_rev.
Qed.

Lemma tokens_rev toks :
  forallb (token p) toks = true -> forallb (token p) (map (@rev char) (rev toks)) = true.
Proof.
  rewrite !forallb_forall. intros H t Ht.
  apply in_map_iff in Ht as [t' [<- Ht']].
  rewrite token_rev. apply H. now apply in_rev.
Qed.

(** A joined list of tokens has no separator at either end. *)
Lemma drop_while_join c toks :
  forallb (token p) toks = true ->
  rev (drop_while p (rev (drop_while p (join [c] toks)))) = join [c] toks.
Proof.
  intros H.
  rewrite (drop_while_id (join [c] toks)) by now apply join_head.
  rewrite rev_join. simpl rev at 2.
  rewrite drop_while_id by (apply join_head; now apply tokens_rev).
  change [c] with (rev [c]). rewrite <- rev_join. apply rev_involutive.
Qed.
End SplitJoin.

(** ** Normalised keys *)

Lemma forallb_Forall (A : Type) (q : A -> bool) (l : list A) :
  forallb q l = true <-> Forall (fun x => q x = true) l.
Proof. rewrite forallb_forall, Forall_forall. reflexivity. Qed.

Lemma forallb_join (q : char -> bool) sep toks :
  forallb q sep = true -> forallb (forallb q) toks = true ->
  forallb q (join sep toks) = true.
Proof.
  intros Hsep. induction toks as [|t toks IH]; [reflexivity|].
  simpl forallb. intros H. apply andb_true_iff in H as [Ht Hts].
  destruct toks as [|t' toks]; [exact Ht|].
  change (join sep (t :: t' :: toks)) with (t ++ sep ++ join sep (t' :: toks)).
  rewrite !forallb_app, Ht, Hsep. simpl. now apply IH.
Qed.

Section CleanSpaces.
Context {U : UnicodeDB}.

Lemma isspace_32 : py_isspace 32 = true.
Proof. now rewrite isspace_ascii. Qed.

Lemma split_ws_tokens (q : char -> bool) s :
  forallb q s = true ->
  Forall (fun w => forallb q w = true /\ token py_isspace w = true) (split_ws s).
Proof. apply split_fields_tokens. Qed.

Lemma split_ws_all_tokens s : forallb (token py_isspace) (split_ws s) = true.
Proof.
  apply forallb_Forall.
  assert (H : forallb (fun _ => true) s = true) by (now apply forallb_forall).
  apply (split_ws_tokens _ s) in H.
  eapply Forall_impl; [|exact H]. now intros w [_ Hw].
Qed.

(** The final [strip()] of [clean_spaces] has nothing left to remove. *)
Lemma clean_spaces_join s : clean_spaces s = join [32] (split_ws s).
Proof.
  unfold clean_spaces, strip. rewrite lit_space.
  apply drop_while_join, split_ws_all_tokens.
Qed.

Lemma clean_spaces_chars (q : char -> bool) s :
  q 32 = true -> forallb q s = true -> forallb q (clean_spaces s) = true.
Proof.
  intros Hq Hs. rewrite clean_spaces_join.
  apply forallb_join; [simpl; now rewrite Hq|].
  apply forallb_Forall. apply (split_ws_tokens q) in Hs.
  eapply Forall_impl; [|exact Hs]. now intros w [Hw _].
Qed.

Lemma strip_accents_ascii s : forallb is_ascii s = true -> strip_accents s = s.
Proof.
  intros H. unfold strip_accents. rewrite NFKD_ascii by assumption.
  induction s as [|c s IH]; [reflexivity|].
  simpl in H. apply andb_true_iff in H as [Hc Hs].
  simpl. rewrite combining_ascii by assumption. simpl. now rewrite IH.
Qed.
End CleanSpaces.

Section KeyShape.
Context {U : UnicodeDB}.
Variable keep : char -> bool.
Hypothesis keep_az09 : forall c, keep c = true -> is_az09 c = true.

Lemma key_token_ascii t : key_token keep t = true -> forallb is_ascii t = true.
Proof.
  unfold key_token. intros H. apply andb_true_iff in H as [_ H].
  revert H. apply forallb_imp. intros c Hc. now apply az09_ascii, keep_az09.
Qed.

Lemma key_token_ws t : key_token keep t = true -> token py_isspace t = true.
Proof.
  unfold key_token, token, sep_free. intros H.
  apply andb_true_iff in H as [-> H]. simpl.
  revert H. apply forallb_imp. intros c Hc. apply keep_az09 in Hc.
  rewrite isspace_ascii by now apply az09_ascii.
  now rewrite az09_not_space.
Qed.

Lemma key_token_sp t : key_token keep t = true -> token is_sp t = true.
Proof.
  unfold key_token, token, sep_free. intros H.
  apply andb_true_iff in H as [-> H]. simpl.
  revert H. apply forallb_imp. intros c Hc. apply keep_az09 in Hc.
  now rewrite az09_not_sp.
Qed.

Lemma key_tokens_imp (q : pystr -> bool) toks :
  (forall t, key_token keep t = true -> q t = true) ->
  forallb (key_token keep) toks = true -> forallb q toks = true.
Proof. apply forallb_imp. Qed.

Lemma key_shaped_chars k :
  key_shaped keep k -> forallb (fun c => keep c || is_sp c) k = true.
Proof.
  intros [toks [Ht ->]].
  apply forallb_join; [simpl; now rewrite orb_true_r|].
  revert Ht. apply forallb_imp. intros t Ht.
  unfold key_token in Ht. apply andb_true_iff in Ht as [_ Ht].
  revert Ht. apply forallb_imp. now intros c ->.
Qed.

Lemma key_shaped_az09 k :
  key_shaped keep k -> forallb (fun c => is_az09 c || is_sp c) k = true.
Proof.
  intros H. apply key_shaped_chars in H. revert H. apply forallb_imp.
  intros c Hc. apply orb_true_iff in Hc as [Hc | Hc].
  - now rewrite keep_az09.
  - rewrite Hc. apply orb_true_r.
Qed.

Lemma key_shaped_ascii k : key_shaped keep k -> forallb is_ascii k = true.
Proof.
  intros H. apply key_shaped_az09 in H. revert H. apply forallb_imp.
  intros c Hc. apply orb_true_iff in Hc as [Hc | Hc]; [now apply az09_ascii|].
  char_cases.
Qed.

Lemma key_shaped_no_upper k : key_shaped keep k -> existsb is_upper_AZ k = false.
Proof.
  intros H. apply key_shaped_az09 in H.
  destruct (existsb is_upper_AZ k) eqn:E; [|reflexivity].
  apply existsb_exists in E as [c [Hin Hc]].
  rewrite forallb_forall in H. specialize (H c Hin).
  apply orb_true_iff in H as [H | H].
  - apply az09_not_upper in H. congruence.
  - char_cases.
Qed.

Lemma split_ws_shaped toks :
  forallb (key_token keep) toks = true -> split_ws (join [32] toks) = toks.
Proof.
  intros H. apply split_on_join; [apply isspace_32|].
  revert H. apply key_tokens_imp, key_token_ws.
Qed.

Lemma split_space_shaped toks :
  forallb (key_token keep) toks = true ->
  filter nonempty (split_space (join [32] toks)) = toks.
Proof.
  intros H. apply split_on_join; [reflexivity|].
  revert H. apply key_tokens_imp, key_token_sp.
Qed.

Lemma clean_spaces_shaped k : key_shaped keep k -> clean_spaces k = k.
Proof.
  intros [toks [Ht ->]]. rewrite clean_spaces_join. now rewrite split_ws_shaped.
Qed.

Lemma lower_shaped k : key_shaped keep k -> py_lower k = k.
Proof.
  intros H. rewrite lower_ascii by now apply key_shaped_ascii.
  apply key_shaped_az09 in H. revert H. apply map_id_on.
  intros c Hc. apply orb_true_iff in Hc as [Hc | Hc]; [now apply az09_lower|].
  char_cases.
Qed.

Lemma re_sub_chars b s :
  forallb (fun c => keep c || is_sp c) (re_sub_aux keep b s) = true.
Proof.
  revert b. induction s as [|c s IH]; intros b; [reflexivity|].
  simpl. destruct (keep c) eqn:Hc.
  - simpl. now rewrite Hc, IH.
  - destruct b; [apply IH|]. simpl. now rewrite IH, orb_true_r.
Qed.

Lemma re_sub_keep_app t r b :
  forallb keep t = true ->
  re_sub_aux keep b (t ++ r) = t ++ re_sub_aux keep (if nonempty t then false else b) r.
Proof.
  revert b. induction t as [|c t IH]; intros b H; [reflexivity|].
  simpl in H. apply andb_true_iff in H as [Hc Ht].
  simpl. rewrite Hc, (IH false Ht). now destruct t.
Qed.

Lemma keep_not_32 : keep 32 = false.
Proof.
  destruct (keep 32) eqn:E; [|reflexivity].
  apply keep_az09 in E. discriminate.
Qed.

Lemma re_sub_tokens b toks :
  forallb (key_token keep) toks = true ->
  re_sub_aux keep b (join [32] toks) = join [32] toks.
Proof.
  revert b. induction toks as [|t toks IH]; intros b H; [reflexivity|].
  simpl in H. apply andb_true_iff in H as [Ht Hts].
  unfold key_token in Ht. apply andb_true_iff in Ht as [Hne Hk].
  destruct toks as [|t' toks].
  - simpl. rewrite <- (app_nil_r t) at 1.
    rewrite re_sub_keep_app by assumption. simpl. now rewrite app_nil_r.
  - change (join [32] (t :: t' :: toks)) with (t ++ 32 :: join [32] (t' :: toks)).
    rewrite re_sub_keep_app by assumption. rewrite Hne.
    simpl re_sub_aux at 1. rewrite keep_not_32. now rewrite IH.
Qed.

Lemma re_sub_shaped k : key_shaped keep k -> re_sub_to_space keep k = k.
Proof. intros [toks [Ht ->]]. now apply re_sub_tokens. Qed.

(** Substituting and cleaning always ends in a key-shaped string. *)
Lemma clean_re_sub_shaped s : key_shaped keep (clean_spaces (re_sub_to_space keep s)).
Proof.
  exists (split_ws (re_sub_to_space keep s)). split; [|apply clean_spaces_join].
  apply forallb_Forall.
  pose proof (split_ws_tokens _ _ (re_sub_chars false s)) as H.
  eapply Forall_impl; [|exact H]. clear H.
  intros w [Hq Hw]. unfold token in Hw. apply andb_true_iff in Hw as [Hne Hfree].
  unfold key_token. rewrite Hne. simpl.
  apply forallb_forall. intros c Hc.
  unfold sep_free in Hfree. rewrite forallb_forall in Hq, Hfree.
  specialize (Hq c Hc). specialize (Hfree c Hc).
  apply orb_true_iff in Hq as [Hq | Hq]; [assumption|].
  unfold is_sp in Hq. apply N.eqb_eq in Hq. subst c.
  rewrite isspace_32 in Hfree. discriminate.
Qed.

(** On a key-shaped string the whole normalisation is the identity. *)
Lemma normalise_shaped k :
  key_shaped keep k ->
  clean_spaces (re_sub_to_space keep (py_lower (strip_accents (clean_spaces k)))) = k.
Proof.
  intros H. rewrite (clean_spaces_shaped H).
  rewrite strip_accents_ascii by now apply key_shaped_ascii.
  rewrite (lower_shaped H), (re_sub_shaped H). now apply clean_spaces_shaped.
Qed.
End KeyShape.

Section CommunityKey.
Context {U : UnicodeDB}.

Lemma az09_self c : is_az09 c = true -> is_az09 c = true.
Proof. exact (fun H => H). Qed.

Lemma norm_community_shaped name : key_shaped is_az09 (norm_community name).
Proof. apply clean_re_sub_shaped. Qed.

(** C9. Community-key normalisation is idempotent: normalising a key
    that is already normalised gives it back, for every string. *)
Theorem norm_community_idempotent (x : pystr) :
  norm_community (norm_community x) = norm_community x.
Proof.
  apply (normalise_shaped az09_self), norm_community_shaped.
Qed.
End CommunityKey.

(** ** The title-caser on normalised keys *)

Lemma existsb_false_forallb (A : Type) (q : A -> bool) (l : list A) :
  existsb q l = false <-> forallb (fun x => negb (q x)) l = true.
Proof.
  induction l as [|x l IH]; simpl; [tauto|].
  rewrite orb_false_iff, andb_true_iff, negb_true_iff. tauto.
Qed.

Lemma map_join (f : char -> char) sep toks :
  map f (join sep toks) = join (map f sep) (map (map f) toks).
Proof.
  induction toks as [|t toks IH]; [reflexivity|].
  destruct toks as [|t' toks]; [reflexivity|].
  change (join sep (t :: t' :: toks)) with (t ++ sep ++ join sep (t' :: toks)).
  rewrite !map_app, IH. reflexivity.
Qed.

Section TitleCaserProps.
Context {U : UnicodeDB}.

Lemma words_of_chars (q : char -> bool) s :
  q 32 = true -> forallb q s = true ->
  Forall (fun w => forallb q w = true) (words_of s).
Proof.
  intros Hq Hs. unfold words_of, split_space.
  pose proof (split_fields_tokens is_sp q _ (clean_spaces_chars q s Hq Hs)) as H.
  eapply Forall_impl; [|exact H]. now intros w [Hw _].
Qed.

Lemma title_word_no_upper i w :
  existsb is_upper_AZ w = false -> title_word i w = title_word_no_acronym i w.
Proof.
  intros H. unfold title_word, title_word_no_acronym, acronym.
  now rewrite H, andb_false_r.
Qed.

Lemma title_words_no_upper i ws :
  Forall (fun w => existsb is_upper_AZ w = false) ws ->
  title_words i ws = title_words_no_acronym i ws.
Proof.
  intros H. revert i. induction H as [|w ws Hw _ IH]; intros i; [reflexivity|].
  simpl. now rewrite title_word_no_upper, IH.
Qed.

Lemma words_of_no_upper s :
  existsb is_upper_AZ s = false ->
  Forall (fun w => existsb is_upper_AZ w = false) (words_of s).
Proof.
  intros H. apply existsb_false_forallb in H.
  apply words_of_chars in H; [|reflexivity].
  eapply Forall_impl; [|exact H].
  intros w Hw. now apply existsb_false_forallb.
Qed.

(** Without a capital in the input no word takes the acronym branch. *)
Lemma title_case_no_upper s :
  existsb is_upper_AZ s = false -> title_case_smart s = title_case_no_acronym s.
Proof.
  intros H. unfold title_case_smart, title_case_no_acronym.
  now rewrite title_words_no_upper by now apply words_of_no_upper.
Qed.

Lemma acronym_no_upper s :
  existsb is_upper_AZ s = false ->
  Forall (fun w => acronym w = false) (words_of s).
Proof.
  intros H. apply words_of_no_upper in H.
  eapply Forall_impl; [|exact H].
  intros w Hw. unfold acronym. now rewrite Hw, andb_false_r.
Qed.

Section OnKeys.
Variable keep : char -> bool.
Hypothesis keep_az09 : forall c, keep c = true -> is_az09 c = true.

Lemma key_token_lower t : key_token keep t = true -> map ascii_lower t = t.
Proof.
  unfold key_token. intros H. apply andb_true_iff in H as [_ H].
  revert H. apply map_id_on. intros c Hc. now apply az09_lower, keep_az09.
Qed.

Lemma words_of_shaped toks :
  forallb (key_token keep) toks = true -> words_of (join [32] toks) = toks.
Proof.
  intros H. unfold words_of.
  rewrite (clean_spaces_shaped keep_az09) by now exists toks.
  now apply (split_space_shaped _ keep_az09).
Qed.

(** Lower-casing a title-cased key token gives the token back. *)
Lemma title_word_lower i t :
  key_token keep t = true -> map ascii_lower (title_word i t) = t.
Proof.
  intros H. pose proof (key_token_lower _ H) as Hl.
  pose proof (key_token_ascii _ keep_az09 _ H) as Ha.
  unfold title_word.
  destruct (str_isdigit t); [exact Hl|].
  destruct (acronym t); [exact Hl|].
  rewrite (lower_ascii t Ha), Hl.
  destruct (negb (i =? 0)%nat && mem t small); [exact Hl|].
  unfold key_token in H. apply andb_true_iff in H as [Hne Hk].
  destruct t as [|c t]; [discriminate|].
  simpl in Ha, Hk, Hl. simpl firstn. simpl skipn.
  apply andb_true_iff in Ha as [Hc _]. apply andb_true_iff in Hk as [Hkc _].
  rewrite upper_ascii by (simpl; now rewrite Hc).
  simpl. injection Hl as _ Hl. rewrite Hl.
  now rewrite az09_lower_upper by now apply keep_az09.
Qed.

Lemma title_words_lower i toks :
  forallb (key_token keep) toks = true ->
  map (map ascii_lower) (title_words i toks) = toks.
Proof.
  revert i. induction toks as [|t toks IH]; intros i H; [reflexivity|].
  simpl in H. apply andb_true_iff in H as [Ht Hts].
  simpl. now rewrite title_word_lower, IH.
Qed.

Lemma title_case_lower k :
  key_shaped keep k -> map ascii_lower (title_case_smart k) = k.
Proof.
  intros [toks [Ht ->]]. unfold title_case_smart.
  rewrite words_of_shaped by assumption.
  rewrite lit_space, map_join. now rewrite title_words_lower.
Qed.

(** Distinct keys get distinct display names. *)
Lemma title_case_inj k1 k2 :
  key_shaped keep k1 -> key_shaped keep k2 ->
  title_case_smart k1 = title_case_smart k2 -> k1 = k2.
Proof.
  intros H1 H2 E.
  rewrite <- (title_case_lower H1), <- (title_case_lower H2). now rewrite E.
Qed.
End OnKeys.
End TitleCaserProps.

(** ** Address keys and type keys are key-shaped *)

Section OtherKeys.
Context {U : UnicodeDB}.

Lemma od_get_default_cases (V : Type) (k : pystr) (d : V) (m : odict V) :
  od_get_default k d m = d \/ In (od_get_default k d m) (map snd m).
Proof.
  unfold od_get_default. induction m as [|[k' v] m IH]; simpl; [now left|].
  destruct (str_eqb k' k); [right; now left|].
  destruct IH as [IH | IH]; [now left | right; now right].
Qed.

Lemma abbrev_values : forallb (key_token is_az09) (map snd abbrev) = true.
Proof. reflexivity. Qed.

Lemma expand_tokens toks :
  forallb (key_token is_az09) toks = true ->
  forallb (key_token is_az09) (expand_abbrev_tokens toks) = true.
Proof.
  intros H. unfold expand_abbrev_tokens. apply forallb_forall.
  intros t' Ht'. apply in_map_iff in Ht' as [t [<- Ht]].
  rewrite forallb_forall in H. specialize (H t Ht).
  rewrite (lower_ascii t) by (apply (key_token_ascii _ az09_self); assumption).
  rewrite (key_token_lower _ az09_self _ H).
  destruct (od_get_default_cases t t abbrev) as [-> | Hin]; [assumption|].
  pose proof abbrev_values as Hv. rewrite forallb_forall in Hv. now apply Hv.
Qed.

Lemma norm_address_shaped addr : key_shaped is_az09 (norm_address addr).
Proof.
  unfold norm_address. cbv zeta.
  destruct (clean_re_sub_shaped is_az09
              (py_lower (strip_accents (clean_spaces addr)))) as [toks [Ht E]].
  rewrite E, (split_space_shaped _ az09_self) by assumption.
  exists (expand_abbrev_tokens toks). split; [now apply expand_tokens | reflexivity].
Qed.

Lemma type_key_shaped t : key_shaped is_lower_az (type_key t).
Proof. apply clean_re_sub_shaped. Qed.

(** C8. Every argument the pipeline passes to the title-caser -- a
    normalised community key, a normalised address key, the
    letters-only key of the type classifier -- is made of lower-case
    letters, digits and spaces, so it has no capital; no word of it
    passes the acronym test, and on it [title_case_smart] equals the
    function without the acronym branch. *)
Theorem acronym_branch_dead_in_pipeline :
  let dead (k : pystr) :=
    forallb (fun c => is_az09 c || is_sp c) k = true /\
    existsb is_upper_AZ k = false /\
    Forall (fun w => acronym w = false) (words_of k) /\
    title_case_smart k = title_case_no_acronym k in
  (forall name, dead (norm_community name)) /\
  (forall addr, dead (norm_address addr)) /\
  (forall t, dead (type_key t)).
Proof.
  assert (D : forall keep k,
             (forall c, keep c = true -> is_az09 c = true) -> key_shaped keep k ->
             forallb (fun c => is_az09 c || is_sp c) k = true /\
             existsb is_upper_AZ k = false /\
             Forall (fun w => acronym w = false) (words_of k) /\
             title_case_smart k = title_case_no_acronym k).
  { intros keep k Hkeep Hk.
    pose proof (key_shaped_no_upper Hkeep Hk) as Hup.
    split; [now apply (key_shaped_az09 Hkeep)|].
    split; [assumption|].
    split; [now apply acronym_no_upper | now apply title_case_no_upper]. }
  cbv zeta. split; [|split]; intros x.
  - apply (D is_az09); [exact az09_self | apply norm_community_shaped].
  - apply (D is_az09); [exact az09_self | apply norm_address_shaped].
  - apply (D is_lower_az); [exact az_az09 | apply type_key_shaped].
Qed.
End OtherKeys.

(** ** Ordered dictionaries *)

Section OrderedDictProps.
Variable V : Type.
Implicit Types (d : odict V) (k : pystr).

Lemma od_get_None k d : od_get k d = None <-> ~ In k (keys d).
Proof.
  induction d as [|[k' v] d IH]; simpl; [tauto|].
  destruct (str_eqb k' k) eqn:E.
  - apply str_eqb_eq in E. split; [discriminate | intros H; exfalso; apply H; now left].
  - apply str_eqb_neq in E. rewrite IH. tauto.
Qed.

Lemma od_get_In k v d : od_get k d = Some v -> In (k, v) d.
Proof.
  induction d as [|[k' v'] d IH]; simpl; [discriminate|].
  destruct (str_eqb k' k) eqn:E.
  - apply str_eqb_eq in E. intros [= ->]. left. now subst.
  - intros H. right. now apply IH.
Qed.

Lemma od_get_NoDup k v d : NoDup (keys d) -> In (k, v) d -> od_get k d = Some v.
Proof.
  induction d as [|[k' v'] d IH]; simpl; [contradiction|].
  intros Hnd Hin. inversion Hnd as [|? ? Hk' Hnd']; subst.
  destruct Hin as [[= -> ->] | Hin].
  - now rewrite str_eqb_refl.
  - destruct (str_eqb k' k) eqn:E; [|now apply IH].
    apply str_eqb_eq in E. subst. exfalso. apply Hk'.
    apply in_map_iff. now exists (k, v).
Qed.

Lemma od_get_setdefault k k' v d :
  od_get k' (od_setdefault k v d) =
  match od_get k' d with
  | Some x => Some x
  | None => if str_eqb k k' then Some v else None
  end.
Proof.
  induction d as [|[k0 v0] d IH]; simpl.
  - reflexivity.
  - destruct (str_eqb k0 k) eqn:E0.
    + simpl. destruct (str_eqb k0 k') eqn:E1; [reflexivity|].
      apply str_eqb_eq in E0. subst k0. rewrite E1.
      now destruct (od_get k' d).
    + simpl. destruct (str_eqb k0 k'); [reflexivity | exact IH].
Qed.

Lemma od_get_update k k' (f : V -> V) d :
  od_get k' (od_update k f d) =
  if str_eqb k k' then option_map f (od_get k' d) else od_get k' d.
Proof.
  induction d as [|[k0 v0] d IH]; simpl.
  - now destruct (str_eqb k k').
  - destruct (str_eqb k0 k) eqn:E0; simpl.
    + apply str_eqb_eq in E0. subst k0.
      now destruct (str_eqb k k').
    + destruct (str_eqb k0 k') eqn:E1; [|exact IH].
      apply str_eqb_eq in E1. subst k0.
      rewrite str_eqb_sym in E0. now rewrite E0.
Qed.

Lemma keys_update k (f : V -> V) d : keys (od_update k f d) = keys d.
Proof.
  induction d as [|[k0 v0] d IH]; simpl; [reflexivity|].
  destruct (str_eqb k0 k); simpl; [reflexivity | now rewrite IH].
Qed.

Lemma keys_setdefault k v d :
  keys (od_setdefault k v d) = if mem k (keys d) then keys d else keys d ++ [k].
Proof.
  induction d as [|[k0 v0] d IH]; simpl; [reflexivity|].
  rewrite (str_eqb_sym k k0).
  destruct (str_eqb k0 k); simpl; [reflexivity|].
  rewrite IH. fold (mem k (keys d)). now destruct (mem k (keys d)).
Qed.

Lemma od_set_fresh k v d : ~ In k (keys d) -> od_set k v d = d ++ [(k, v)].
Proof.
  induction d as [|[k0 v0] d IH]; simpl; [reflexivity|].
  intros H. destruct (str_eqb k0 k) eqn:E.
  - apply str_eqb_eq in E. exfalso. apply H. now left.
  - rewrite IH; [reflexivity | tauto].
Qed.

Lemma NoDup_setdefault k v d : NoDup (keys d) -> NoDup (keys (od_setdefault k v d)).
Proof.
  intros H. rewrite keys_setdefault. destruct (mem k (keys d)) eqn:E; [assumption|].
  apply mem_false in E. apply NoDup_app; [assumption | repeat constructor; tauto |].
  intros x Hx [<- | []]. contradiction.
Qed.
End OrderedDictProps.

(** ** The two loops of [clean_groups] *)

Section Buckets.
Context {U : UnicodeDB}.

Lemma bucket_step_get k b item :
  od_get k (bucket_step b item) =
  if str_eqb (norm_community (fst item)) k
  then match contribution (snd item) with
       | Some es => Some (match od_get k b with Some old => old | None => [] end ++ es)
       | None => od_get k b
       end
  else od_get k b.
Proof.
  destruct item as [n v]. unfold bucket_step. simpl fst. simpl snd. simpl py_str.
  destruct v; simpl contribution;
    try (now destruct (str_eqb (norm_community n) k)).
  rewrite od_get_update, od_get_setdefault.
  destruct (str_eqb (norm_community n) k); now destruct (od_get k b).
Qed.

Lemma buckets_get_from k items b :
  od_get k (fold_left bucket_step items b) =
  match od_get k b with
  | Some old => Some (old ++ merged_entries k items)
  | None => if has_bucket k items then Some (merged_entries k items) else None
  end.
Proof.
  revert b. induction items as [|item items IH]; intros b.
  - simpl. destruct (od_get k b); [now rewrite app_nil_r | reflexivity].
  - simpl fold_left. rewrite IH, bucket_step_get.
    unfold merged_entries, has_bucket. simpl flat_map. simpl existsb.
    destruct (str_eqb (norm_community (fst item)) k); simpl.
    + unfold entries_of. destruct (contribution (snd item)) as [es|]; simpl.
      * destruct (od_get k b); [now rewrite app_assoc | reflexivity].
      * reflexivity.
    + reflexivity.
Qed.

(** The bucket of [k] after the first loop. *)
Lemma buckets_get k items :
  od_get k (fold_left bucket_step items []) =
  if has_bucket k items then Some (merged_entries k items) else None.
Proof. now rewrite buckets_get_from. Qed.

Lemma bucket_step_keys b item :
  NoDup (keys b) /\ Forall (key_shaped is_az09) (keys b) ->
  NoDup (keys (bucket_step b item)) /\
  Forall (key_shaped is_az09) (keys (bucket_step b item)).
Proof.
  intros [Hnd Hsh]. destruct item as [n v]. unfold bucket_step. simpl snd.
  destruct v; try (split; assumption).
  rewrite keys_update. split; [now apply NoDup_setdefault|].
  rewrite keys_setdefault. destruct (mem _ (keys b)); [assumption|].
  apply Forall_app. split; [assumption|].
  constructor; [apply norm_community_shaped | constructor].
Qed.

Lemma buckets_keys items b :
  NoDup (keys b) /\ Forall (key_shaped is_az09) (keys b) ->
  NoDup (keys (fold_left bucket_step items b)) /\
  Forall (key_shaped is_az09) (keys (fold_left bucket_step items b)).
Proof.
  revert b. induction items as [|item items IH]; intros b H; [exact H|].
  simpl. now apply IH, bucket_step_keys.
Qed.

(** The display names of distinct key-shaped keys are distinct. *)
Lemma display_keys_NoDup ks :
  NoDup ks -> Forall (key_shaped is_az09) ks -> NoDup (map title_case_smart ks).
Proof.
  induction ks as [|k ks IH]; intros Hnd Hsh; [constructor|].
  inversion Hnd as [|? ? Hk Hnd']; inversion Hsh as [|? ? Hks Hsh']; subst.
  simpl. constructor; [|now apply IH].
  intros Hin. apply in_map_iff in Hin as [k' [E Hk']].
  rewrite Forall_forall in Hsh'.
  apply (title_case_inj az09_self (Hsh' k' Hk') Hks) in E. now subst.
Qed.

Lemma out_steps buckets out :
  NoDup (keys out ++ map title_case_smart (keys buckets)) ->
  fold_left out_step buckets out = out ++ map display buckets.
Proof.
  revert out. induction buckets as [|b buckets IH]; intros out H.
  - simpl. now rewrite app_nil_r.
  - simpl fold_left. unfold out_step at 2.
    simpl in H. apply NoDup_remove in H as H'. destruct H' as [_ Hb].
    rewrite od_set_fresh by (intros Hin; apply Hb, in_or_app; now left).
    rewrite IH.
    + now rewrite <- app_assoc.
    + unfold keys at 1. rewrite map_app. simpl. fold (keys out).
      rewrite <- app_assoc. exact H.
Qed.

(** The two loops in one: each bucket of the first loop becomes one
    community of the output, under its display name, in bucket order. *)
Lemma clean_groups_dict items :
  clean_groups (JDict items) = Ok (map display (fold_left bucket_step items [])).
Proof.
  assert (E : clean_groups (JDict items) =
              Ok (fold_left out_step (fold_left bucket_step items []) [])).
  { unfold clean_groups. destruct items; reflexivity. }
  rewrite E. f_equal. rewrite out_steps; [reflexivity|].
  simpl. apply display_keys_NoDup; apply buckets_keys; repeat constructor.
Qed.

Lemma display_get k buckets :
  key_shaped is_az09 k -> Forall (key_shaped is_az09) (keys buckets) ->
  od_get (title_case_smart k) (map display buckets) =
  option_map clean_entries (od_get k buckets).
Proof.
  intros Hk. induction buckets as [|[k' es] buckets IH]; intros Hsh; [reflexivity|].
  inversion Hsh as [|? ? Hk' Hsh']; subst. simpl in Hk'.
  simpl. destruct (str_eqb k' k) eqn:E.
  - apply str_eqb_eq in E. subst. now rewrite str_eqb_refl.
  - destruct (str_eqb (title_case_smart k') (title_case_smart k)) eqn:E'; [|now apply IH].
    apply str_eqb_eq in E'. apply (title_case_inj az09_self Hk' Hk) in E'.
    apply str_eqb_neq in E. contradiction.
Qed.

(** What the output holds for the community key [k]. *)
Lemma clean_groups_get items k :
  key_shaped is_az09 k ->
  exists out,
    clean_groups (JDict items) = Ok out /\
    NoDup (keys out) /\
    od_get (title_case_smart k) out =
    if has_bucket k items then Some (clean_entries (merged_entries k items)) else None.
Proof.
  intros Hk. eexists. split; [apply clean_groups_dict|].
  destruct (buckets_keys items []) as [Hnd Hsh]; [split; constructor|].
  split.
  - unfold keys. rewrite map_map. simpl.
    rewrite <- (map_map fst title_case_smart). now apply display_keys_NoDup.
  - rewrite display_get by assumption. rewrite buckets_get.
    now destruct (has_bucket k items).
Qed.
End Buckets.

(** ** Communities across spellings *)

Section Communities.
Context {U : UnicodeDB}.

Lemma merged_entries_app k xs ys :
  merged_entries k (xs ++ ys) = merged_entries k xs ++ merged_entries k ys.
Proof. apply flat_map_app. Qed.

Lemma merged_entries_hit k n v rest :
  norm_community n = k ->
  merged_entries k ((n, v) :: rest) = entries_of v ++ merged_entries k rest.
Proof.
  intros E. unfold merged_entries. simpl. now rewrite E, str_eqb_refl.
Qed.

Lemma has_bucket_In k n v items :
  In (n, v) items -> norm_community n = k -> contribution v <> None ->
  has_bucket k items = true.
Proof.
  intros Hin E Hv. apply existsb_exists. exists (n, v).
  split; [assumption|]. simpl. rewrite E, str_eqb_refl.
  now destruct (contribution v).
Qed.

Lemma flat_map_nil (A B : Type) (f : A -> list B) (l : list A) :
  (forall x, In x l -> f x = []) -> flat_map f l = [].
Proof.
  induction l as [|x l IH]; intros H; [reflexivity|].
  simpl. rewrite (H x) by now left. apply IH. intros y Hy. apply H. now right.
Qed.

Lemma In_same_key (V : Type) (d : odict V) k v1 v2 :
  NoDup (keys d) -> In (k, v1) d -> In (k, v2) d -> v1 = v2.
Proof.
  intros Hnd H1 H2.
  apply (@od_get_NoDup _ _ _ _ Hnd) in H1. apply (@od_get_NoDup _ _ _ _ Hnd) in H2.
  congruence.
Qed.

(** C7. Two raw community names that normalise to the same key, at any
    two places of the document, end up in one output community: the
    output has one entry list per display name, and the one of their
    common key is computed from a single bucket, which holds the
    entries of the earlier name before those of the later one, among
    the entries of the other spellings of the key in document order.
    The community is written as soon as one of the two values is a
    list. *)
Theorem communities_merge_across_spellings
  (pre mid post : odict json) (n1 n2 : pystr) (v1 v2 : json) :
  norm_community n1 = norm_community n2 ->
  let k := norm_community n1 in
  let items := pre ++ (n1, v1) :: mid ++ (n2, v2) :: post in
  exists out,
    clean_groups (JDict items) = Ok out /\
    NoDup (keys out) /\
    od_get (title_case_smart k) out =
    (if has_bucket k items
     then Some (clean_entries
                  (merged_entries k pre ++ entries_of v1 ++
                   merged_entries k mid ++ entries_of v2 ++
                   merged_entries k post))
     else None) /\
    (contribution v1 <> None \/ contribution v2 <> None -> has_bucket k items = true).
Proof.
  intros E k items.
  destruct (clean_groups_get items (norm_community_shaped n1))
    as [out [Hout [Hnd Hget]]].
  exists out. split; [assumption|]. split; [assumption|]. split.
  - fold k in Hget. rewrite Hget. unfold items.
    rewrite merged_entries_app, merged_entries_hit by reflexivity.
    rewrite merged_entries_app, merged_entries_hit by (symmetry; exact E).
    reflexivity.
  - intros [H | H].
    + apply (@has_bucket_In k n1 v1 items); [|reflexivity | assumption].
      unfold items. apply in_or_app. right. now left.
    + apply (@has_bucket_In k n2 v2 items); [|symmetry; exact E | assumption].
      unfold items. apply in_or_app. right. right. apply in_or_app. right. now left.
Qed.

(** C10. A community whose list has no dict-shaped entry, and whose key
    no other name of the document shares, is still written: its display
    name maps to the empty list. *)
Theorem empty_community_is_kept (items : odict json) (name : pystr) (l : list json) :
  NoDup (keys items) ->
  In (name, JList l) items ->
  dict_entries l = [] ->
  (forall n v, In (n, v) items ->
               norm_community n = norm_community name -> n = name) ->
  exists out,
    clean_groups (JDict items) = Ok out /\
    od_get (title_case_smart (norm_community name)) out = Some [].
Proof.
  intros Hnd Hin Hl Honly.
  destruct (clean_groups_get items (norm_community_shaped name))
    as [out [Hout [_ Hget]]].
  exists out. split; [assumption|]. rewrite Hget.
  rewrite (@has_bucket_In _ name (JList l) items Hin eq_refl) by discriminate.
  replace (merged_entries (norm_community name) items) with (@nil (odict json));
    [reflexivity|].
  symmetry. apply flat_map_nil. intros [n v] Hnv. simpl.
  destruct (str_eqb (norm_community n) (norm_community name)) eqn:E; [|reflexivity].
  apply str_eqb_eq in E. pose proof (Honly n v Hnv E) as ->.
  rewrite (@In_same_key _ items name v (JList l) Hnd Hnv Hin). simpl. exact Hl.
Qed.
End Communities.

(** ** Gate tokens: the runs of digits *)

Section DigitRuns.
Context {U : UnicodeDB}.

Lemma take_drop_while p s : take_while p s ++ drop_while p s = s.
Proof.
  induction s as [|c s IH]; [reflexivity|].
  simpl. destruct (p c); [simpl; now rewrite IH | reflexivity].
Qed.

Lemma take_while_all p s : forallb p (take_while p s) = true.
Proof.
  induction s as [|c s IH]; [reflexivity|].
  simpl. destruct (p c) eqn:E; [simpl; now rewrite E | reflexivity].
Qed.

Lemma drop_while_length p s : (length (drop_while p s) <= length s)%nat.
Proof.
  induction s as [|c s IH]; [constructor|].
  simpl. destruct (p c); simpl; lia.
Qed.

Lemma drop_while_stops s : stops (drop_while re_digit s).
Proof.
  induction s as [|c s IH]; [exact I|].
  simpl. destruct (re_digit c) eqn:E; [exact IH | exact E].
Qed.

Lemma take_while_run run rest :
  forallb re_digit run = true -> stops rest ->
  take_while re_digit (run ++ rest) = run /\ drop_while re_digit (run ++ rest) = rest.
Proof.
  intros Hrun Hrest. induction run as [|c run IH]; simpl.
  - destruct rest as [|c rest]; [now split|]. simpl in *. now rewrite Hrest.
  - simpl in Hrun. apply andb_true_iff in Hrun as [Hc Hrun].
    rewrite Hc. destruct (IH Hrun) as [-> ->]. now split.
Qed.

Lemma digit_runs_skip c s toks :
  re_digit c = false -> digit_runs s toks -> digit_runs (c :: s) toks.
Proof.
  intros Hc H. inversion H as [gap Hgap | gap run rest toks' Hgap Hne Hrun Hst Hrest]; subst.
  - apply runs_none. unfold no_digit in *. simpl. now rewrite Hc.
  - change (c :: gap ++ run ++ rest) with ((c :: gap) ++ run ++ rest).
    apply runs_next; try assumption. unfold no_digit in *. simpl. now rewrite Hc.
Qed.

Lemma findall_from_runs steps s :
  (length s <= steps)%nat -> digit_runs s (findall_digits_from steps s).
Proof.
  revert s. induction steps as [|steps IH]; intros s Hlen.
  - destruct s; [|simpl in Hlen; lia]. now apply runs_none.
  - destruct s as [|c s]; [now apply runs_none|].
    simpl in Hlen. cbn [findall_digits_from].
    destruct (re_digit c) eqn:Hc.
    + rewrite <- (take_drop_while re_digit (c :: s)) at 1.
      apply (runs_next []); try reflexivity.
      * simpl. now rewrite Hc.
      * apply take_while_all.
      * apply drop_while_stops.
      * apply IH. simpl. rewrite Hc.
        pose proof (drop_while_length re_digit s). lia.
    + apply digit_runs_skip; [assumption|]. apply IH. lia.
Qed.

Lemma findall_from_steps n m s :
  (length s <= n)%nat -> (length s <= m)%nat ->
  findall_digits_from n s = findall_digits_from m s.
Proof.
  revert m s. induction n as [|n IH]; intros m s Hn Hm.
  - destruct s; [|simpl in Hn; lia]. now destruct m.
  - destruct s as [|c s]; [now destruct m|].
    destruct m as [|m]; [simpl in Hm; lia|].
    simpl in Hn, Hm. cbn [findall_digits_from].
    destruct (re_digit c) eqn:Hc.
    + f_equal. simpl. rewrite Hc.
      pose proof (drop_while_length re_digit s). apply IH; lia.
    + apply IH; lia.
Qed.

Lemma findall_cons_skip c s :
  re_digit c = false -> findall_digits (c :: s) = findall_digits s.
Proof.
  intros Hc. unfold findall_digits. simpl. now rewrite Hc.
Qed.

Lemma findall_gap gap s :
  no_digit gap = true -> findall_digits (gap ++ s) = findall_digits s.
Proof.
  induction gap as [|c gap IH]; intros H; [reflexivity|].
  unfold no_digit in H. simpl in H. apply andb_true_iff in H as [Hc Hgap].
  apply negb_true_iff in Hc. simpl. rewrite findall_cons_skip by assumption.
  now apply IH.
Qed.

Lemma findall_run run rest :
  nonempty run = true -> forallb re_digit run = true -> stops rest ->
  findall_digits (run ++ rest) = run :: findall_digits rest.
Proof.
  intros Hne Hrun Hst. destruct (take_while_run run rest Hrun Hst) as [Ht Hd].
  destruct run as [|c run]; [discriminate|].
  unfold findall_digits at 1. simpl length. cbn [findall_digits_from].
  change ((c :: run) ++ rest) with (c :: run ++ rest) in *.
  simpl in Hrun. apply andb_true_iff in Hrun as [Hc _]. rewrite Hc.
  rewrite Ht, Hd. f_equal. apply findall_from_steps; [|constructor].
  rewrite length_app. lia.
Qed.

(** The runs of a string are what the search returns, and nothing else. *)
Lemma digit_runs_findall s toks :
  digit_runs s toks <-> toks = findall_digits s.
Proof.
  split.
  - induction 1 as [gap Hgap | gap run rest toks Hgap Hne Hrun Hst _ IH].
    + rewrite <- (app_nil_r gap), findall_gap by assumption. reflexivity.
    + rewrite findall_gap, findall_run by assumption. now rewrite IH.
  - intros ->. now apply findall_from_runs.
Qed.
End DigitRuns.

(** ** Gate tokens: removing repeats *)

Section Uniq.

Lemma uniq_from_In seen items x :
  In x (uniq_from seen items) <-> In x items /\ ~ In x seen.
Proof.
  revert seen. induction items as [|y items IH]; intros seen; simpl; [tauto|].
  destruct (mem y seen) eqn:E.
  - apply mem_In in E. rewrite IH. split; [tauto|].
    intros [[-> | H] Hs]; tauto.
  - apply mem_false in E. simpl. rewrite IH. simpl. split.
    + intros [-> | [H Hs]]; [tauto|]. tauto.
    + intros [[-> | H] Hs]; [now left|].
      destruct (str_eq_dec y x) as [-> | Hne]; [now left | right; tauto].
Qed.

Lemma uniq_from_NoDup seen items : NoDup (uniq_from seen items).
Proof.
  revert seen. induction items as [|y items IH]; intros seen; simpl; [constructor|].
  destruct (mem y seen); [apply IH|].
  constructor; [|apply IH].
  rewrite uniq_from_In. simpl. tauto.
Qed.

Lemma uniq_from_snoc seen items x :
  uniq_from seen (items ++ [x]) =
  uniq_from seen items ++ (if mem x seen || mem x items then [] else [x]).
Proof.
  revert seen. induction items as [|y items IH]; intros seen; simpl.
  - rewrite orb_false_r. now destruct (mem x seen).
  - destruct (mem y seen) eqn:E.
    + rewrite IH. f_equal.
      destruct (str_eqb x y) eqn:Exy; [|reflexivity].
      apply str_eqb_eq in Exy. subst. now rewrite E.
    + simpl. rewrite IH. simpl. f_equal. f_equal.
      unfold mem at 1. simpl. fold (mem x seen).
      now destruct (str_eqb x y), (mem x seen), (mem x items).
Qed.

Lemma uniq_from_sorted seen items :
  StronglySorted lt (map (fun x => index_of x items) (uniq_from seen items)).
Proof.
  revert seen. induction items as [|y items IH]; intros seen; simpl; [constructor|].
  assert (Shift : forall s, ~ In y (uniq_from s items) ->
            map (fun x => if str_eqb y x then O else S (index_of x items)) (uniq_from s items) =
            map S (map (fun x => index_of x items) (uniq_from s items))).
  { intros s Hy. rewrite map_map. apply map_ext_in. intros x Hx.
    destruct (str_eqb y x) eqn:E; [|reflexivity].
    apply str_eqb_eq in E. subst. contradiction. }
  assert (Mono : forall l, StronglySorted lt l -> StronglySorted lt (map S l)).
  { induction 1 as [|a l Hl IHl Ha]; simpl; constructor; [assumption|].
    rewrite Forall_forall in *. intros b Hb.
    apply in_map_iff in Hb as [b' [<- Hb']]. specialize (Ha b' Hb'). lia. }
  destruct (mem y seen) eqn:E.
  - apply mem_In in E. rewrite Shift by (rewrite uniq_from_In; tauto).
    apply Mono, IH.
  - simpl. rewrite str_eqb_refl.
    rewrite Shift by (rewrite uniq_from_In; simpl; tauto).
    constructor; [apply Mono, IH|].
    apply Forall_forall. intros b Hb. apply in_map_iff in Hb as [b' [<- _]]. lia.
Qed.
End Uniq.

(** ** ASCII input

    On ASCII strings the functions of the program do not depend on the
    database: they agree with their instance at [ascii_db], which
    computes. *)

Lemma split_on_ext (p q : char -> bool) s :
  (forall c, In c s -> p c = q c) -> split_on p s = split_on q s.
Proof.
  induction s as [|c s IH]; intros H; [reflexivity|].
  simpl. rewrite (H c) by now left.
  rewrite IH by (intros c' Hc'; apply H; now right). reflexivity.
Qed.

Lemma take_while_ext (p q : char -> bool) s :
  (forall c, In c s -> p c = q c) -> take_while p s = take_while q s.
Proof.
  induction s as [|c s IH]; intros H; [reflexivity|].
  simpl. rewrite (H c) by now left.
  rewrite IH by (intros c' Hc'; apply H; now right). reflexivity.
Qed.

Lemma drop_while_ext (p q : char -> bool) s :
  (forall c, In c s -> p c = q c) -> drop_while p s = drop_while q s.
Proof.
  induction s as [|c s IH]; intros H; [reflexivity|].
  simpl. rewrite (H c) by now left.
  rewrite IH by (intros c' Hc'; apply H; now right). reflexivity.
Qed.

Lemma drop_while_chars (p q : char -> bool) s :
  forallb q s = true -> forallb q (drop_while p s) = true.
Proof.
  induction s as [|c s IH]; intros H; [reflexivity|].
  simpl. destruct (p c); [|exact H].
  simpl in H. apply andb_true_iff in H as [_ H]. now apply IH.
Qed.

Lemma re_sub_aux_chars (q keep : char -> bool) b s :
  q 32 = true -> forallb q s = true -> forallb q (re_sub_aux keep b s) = true.
Proof.
  intros Hq. revert b. induction s as [|c s IH]; intros b H; [reflexivity|].
  simpl in H. apply andb_true_iff in H as [Hc Hs].
  simpl. destruct (keep c); [simpl; now rewrite Hc, IH|].
  destruct b; [now apply IH|]. simpl. now rewrite Hq, IH.
Qed.

Lemma map_lower_ascii s : forallb is_ascii s = true -> forallb is_ascii (map ascii_lower s) = true.
Proof.
  rewrite !forallb_forall. intros H c Hc.
  apply in_map_iff in Hc as [c' [<- Hc']]. now apply ascii_lower_ascii, H.
Qed.

Lemma forallb_ext_in (A : Type) (p q : A -> bool) (l : list A) :
  (forall x, In x l -> p x = q x) -> forallb p l = forallb q l.
Proof.
  induction l as [|x l IH]; intros H; [reflexivity|].
  simpl. rewrite (H x) by now left.
  rewrite IH by (intros y Hy; apply H; now right). reflexivity.
Qed.

Section OnASCII.
Context {U : UnicodeDB}.

Lemma clean_spaces_ascii s :
  forallb is_ascii s = true -> @clean_spaces U s = @clean_spaces ascii_db s.
Proof.
  intros H. rewrite !clean_spaces_join. unfold split_ws. do 2 f_equal.
  apply split_on_ext. intros c Hc. apply isspace_ascii.
  rewrite forallb_forall in H. now apply H.
Qed.

Lemma clean_spaces_keeps_ascii s :
  forallb is_ascii s = true -> forallb is_ascii (@clean_spaces ascii_db s) = true.
Proof. now apply clean_spaces_chars. Qed.

(** The common start of the three normalisers. *)
Lemma lower_base_ascii s :
  forallb is_ascii s = true ->
  py_lower (strip_accents (clean_spaces s)) = map ascii_lower (@clean_spaces ascii_db s).
Proof.
  intros H. rewrite clean_spaces_ascii by assumption.
  pose proof (clean_spaces_keeps_ascii s H) as H1.
  rewrite strip_accents_ascii by assumption. now apply lower_ascii.
Qed.

Lemma lower_base_keeps_ascii s :
  forallb is_ascii s = true ->
  forallb is_ascii (map ascii_lower (@clean_spaces ascii_db s)) = true.
Proof. intros H. now apply map_lower_ascii, clean_spaces_keeps_ascii. Qed.

Lemma key_ascii (keep : char -> bool) s :
  forallb is_ascii s = true ->
  clean_spaces (re_sub_to_space keep (py_lower (strip_accents (clean_spaces s)))) =
  @clean_spaces ascii_db
    (re_sub_to_space keep (map ascii_lower (@clean_spaces ascii_db s))).
Proof.
  intros H. rewrite lower_base_ascii by assumption.
  apply clean_spaces_ascii, re_sub_aux_chars; [reflexivity|].
  now apply lower_base_keeps_ascii.
Qed.

Lemma title_word_ascii i w :
  forallb is_ascii w = true -> @title_word U i w = @title_word ascii_db i w.
Proof.
  intros H. unfold title_word, acronym, str_isdigit.
  rewrite (forallb_ext_in py_isdigit (@py_isdigit ascii_db) w)
    by (intros c Hc; apply isdigit_ascii; rewrite forallb_forall in H; now apply H).
  rewrite (upper_ascii w H), (lower_ascii w H).
  rewrite (upper_ascii (firstn 1 (map ascii_lower w))); [reflexivity|].
  destruct w as [|c w]; [reflexivity|].
  simpl in H. apply andb_true_iff in H as [Hc _].
  simpl. now rewrite ascii_lower_ascii.
Qed.

Lemma title_words_ascii i ws :
  Forall (fun w => forallb is_ascii w = true) ws ->
  @title_words U i ws = @title_words ascii_db i ws.
Proof.
  intros H. revert i. induction H as [|w ws Hw _ IH]; intros i; [reflexivity|].
  simpl. now rewrite title_word_ascii, IH.
Qed.

Lemma title_case_smart_ascii s :
  forallb is_ascii s = true -> @title_case_smart U s = @title_case_smart ascii_db s.
Proof.
  intros H. unfold title_case_smart, words_of.
  rewrite clean_spaces_ascii by assumption.
  f_equal. apply title_words_ascii.
  apply (words_of_chars (U:=ascii_db) is_ascii s); [reflexivity | assumption].
Qed.

Lemma type_key_nf t :
  forallb is_ascii t = true ->
  type_key t =
  @clean_spaces ascii_db
    (re_sub_to_space is_lower_az (map ascii_lower (@clean_spaces ascii_db t))).
Proof.
  intros H. unfold type_key. cbv zeta.
  rewrite (clean_spaces_ascii t H).
  rewrite (lower_ascii _ (clean_spaces_keeps_ascii t H)).
  apply clean_spaces_ascii, re_sub_aux_chars; [reflexivity|].
  now apply lower_base_keeps_ascii.
Qed.
End OnASCII.

Section Agreement.
Context {U : UnicodeDB}.

Lemma norm_community_ascii s :
  forallb is_ascii s = true -> @norm_community U s = @norm_community ascii_db s.
Proof.
  intros H. unfold norm_community. cbv zeta.
  rewrite (key_ascii is_az09 s H). symmetry. exact (@key_ascii ascii_db is_az09 s H).
Qed.

Lemma expand_abbrev_ascii toks :
  Forall (fun w => forallb is_ascii w = true) toks ->
  @expand_abbrev_tokens U toks = @expand_abbrev_tokens ascii_db toks.
Proof.
  intros H. unfold expand_abbrev_tokens. apply map_ext_in. intros t Ht.
  rewrite Forall_forall in H. now rewrite (lower_ascii t (H t Ht)).
Qed.

Lemma norm_address_ascii s :
  forallb is_ascii s = true -> @norm_address U s = @norm_address ascii_db s.
Proof.
  intros H. unfold norm_address. cbv zeta.
  rewrite (key_ascii is_az09 s H), (@key_ascii ascii_db is_az09 s H).
  f_equal. apply expand_abbrev_ascii.
  assert (Ha : forallb is_ascii
                 (@clean_spaces ascii_db
                    (re_sub_to_space is_az09 (map ascii_lower (@clean_spaces ascii_db s)))) = true).
  { apply clean_spaces_keeps_ascii, re_sub_aux_chars; [reflexivity|].
    now apply lower_base_keeps_ascii. }
  pose proof (split_fields_tokens is_sp is_ascii _ Ha) as F.
  eapply Forall_impl; [|exact F]. now intros w [Hw _].
Qed.

Lemma type_key_ascii t :
  forallb is_ascii t = true -> @type_key U t = @type_key ascii_db t.
Proof.
  intros H. now rewrite (type_key_nf t H), (@type_key_nf ascii_db t H).
Qed.

Lemma norm_type_ascii t :
  forallb is_ascii t = true -> @norm_type U t = @norm_type ascii_db t.
Proof.
  intros H. unfold norm_type. cbv zeta. rewrite (type_key_ascii t H).
  repeat match goal with |- (if ?b then _ else _) = _ => destruct b; [reflexivity|] end.
  apply title_case_smart_ascii.
  apply (key_shaped_ascii az_az09), type_key_shaped.
Qed.

Lemma findall_from_ascii steps s :
  forallb is_ascii s = true ->
  @findall_digits_from U steps s = @findall_digits_from ascii_db steps s.
Proof.
  revert s. induction steps as [|steps IH]; intros s H; [reflexivity|].
  destruct s as [|c s]; [reflexivity|].
  assert (E : forall c', In c' (c :: s) -> re_digit c' = @re_digit ascii_db c').
  { intros c' Hc'. apply re_digit_ascii. rewrite forallb_forall in H. now apply H. }
  cbn [findall_digits_from]. rewrite (E c) by now left.
  rewrite (take_while_ext _ _ _ E), (drop_while_ext _ _ _ E).
  rewrite IH by now apply drop_while_chars.
  simpl in H. apply andb_true_iff in H as [_ H]. now rewrite IH.
Qed.

Lemma extract_gate_tokens_ascii s :
  forallb is_ascii s = true ->
  @extract_gate_tokens U s = @extract_gate_tokens ascii_db s.
Proof. apply findall_from_ascii. Qed.
End Agreement.

(** ** Address groups *)

Section AddressGroups.
Context {U : UnicodeDB}.

Lemma extend_nil a : extend a [] = a.
Proof. destruct a. unfold extend. simpl. now rewrite !app_nil_r. Qed.

Lemma extend_cons a e es :
  extend (extend a [e]) es = extend a (e :: es).
Proof. unfold extend. simpl. now rewrite <- !app_assoc. Qed.

Lemma by_addr_step_get k m e :
  od_get k (by_addr_step m e) =
  if str_eqb (norm_address (entry_address e)) k
  then Some (extend (match od_get k m with Some a => a | None => empty_agg end) [e])
  else od_get k m.
Proof.
  unfold by_addr_step. cbv zeta. fold (entry_address e).
  rewrite od_get_update, od_get_setdefault.
  destruct (str_eqb (norm_address (entry_address e)) k); now destruct (od_get k m).
Qed.

Lemma by_addr_get_from k entries m :
  od_get k (fold_left by_addr_step entries m) =
  match od_get k m, group_members k entries with
  | Some a, ms => Some (extend a ms)
  | None, [] => None
  | None, ms => Some (extend empty_agg ms)
  end.
Proof.
  revert m. induction entries as [|e entries IH]; intros m.
  - simpl. destruct (od_get k m); [now rewrite extend_nil | reflexivity].
  - simpl fold_left. rewrite IH, by_addr_step_get. unfold group_members. simpl filter.
    destruct (str_eqb (norm_address (entry_address e)) k).
    + rewrite extend_cons. now destruct (od_get k m).
    + reflexivity.
Qed.

(** The group of [k] after the loop over the entries. *)
Lemma by_addr_get k entries :
  od_get k (fold_left by_addr_step entries []) =
  match group_members k entries with
  | [] => None
  | _ => Some (group_of k entries)
  end.
Proof. rewrite by_addr_get_from. simpl. unfold group_of. now destruct (group_members k entries). Qed.

Lemma by_addr_keys entries m :
  NoDup (keys m) -> NoDup (keys (fold_left by_addr_step entries m)).
Proof.
  revert m. induction entries as [|e entries IH]; intros m H; [exact H|].
  simpl. apply IH. unfold by_addr_step. cbv zeta.
  rewrite keys_update. now apply NoDup_setdefault.
Qed.

(** Every entry of the output is the aggregate of one address group,
    and the group has a member. *)
Lemma clean_entries_groups entries out :
  In out (clean_entries entries) ->
  exists k, group_members k entries <> [] /\ out = aggregate k (group_of k entries).
Proof.
  unfold clean_entries. cbv zeta. intros H.
  apply in_map_iff in H as [[k a] [<- Hin]]. simpl.
  apply od_get_NoDup in Hin; [|apply by_addr_keys; constructor].
  rewrite by_addr_get in Hin. exists k.
  destruct (group_members k entries) eqn:E; [discriminate|].
  injection Hin as <-. split; [discriminate | reflexivity].
Qed.
End AddressGroups.

(** ** Majority vote *)

Section MajorityVote.

Lemma count_snoc y l x :
  count y (l ++ [x]) = (count y l + if str_eqb y x then 1 else 0)%nat.
Proof.
  unfold count. rewrite filter_app, length_app. simpl.
  now destruct (str_eqb y x).
Qed.

Lemma count_pos x l : (0 < count x l)%nat <-> In x l.
Proof.
  unfold count. induction l as [|y l IH]; simpl; [split; [lia | tauto]|].
  destruct (str_eqb x y) eqn:E.
  - apply str_eqb_eq in E. subst. simpl. split; [now left | lia].
  - apply str_eqb_neq in E. rewrite IH. split; [tauto|].
    intros [H | H]; [congruence | assumption].
Qed.

Lemma count_nonempty x l : nonempty x = true -> count x (filter nonempty l) = count x l.
Proof.
  intros Hx. unfold count. induction l as [|y l IH]; [reflexivity|].
  simpl. destruct (nonempty y) eqn:Hy; simpl.
  - destruct (str_eqb x y); simpl; now rewrite IH.
  - destruct (str_eqb x y) eqn:E; [|exact IH].
    apply str_eqb_eq in E. congruence.
Qed.

Lemma index_filter_mono (f : pystr -> bool) x y l :
  f x = true -> f y = true ->
  (index_of x (filter f l) < index_of y (filter f l))%nat ->
  (index_of x l < index_of y l)%nat.
Proof.
  intros Hx Hy. induction l as [|z l IH]; simpl; [lia|].
  destruct (f z) eqn:Hz; simpl.
  - destruct (str_eqb z x), (str_eqb z y); lia.
  - destruct (str_eqb z x) eqn:Ex; [apply str_eqb_eq in Ex; congruence|].
    destruct (str_eqb z y) eqn:Ey; [apply str_eqb_eq in Ey; congruence|].
    intros H. apply IH in H. lia.
Qed.

Lemma mem_uniq x l : mem x (uniq_preserve l) = mem x l.
Proof.
  destruct (mem x l) eqn:E.
  - apply mem_In. apply mem_In in E. apply uniq_from_In. simpl. tauto.
  - apply mem_false. apply mem_false in E. intros H. apply uniq_from_In in H. tauto.
Qed.

Lemma Counter_snoc l x : Counter (l ++ [x]) = counter_add (Counter l) x.
Proof. unfold Counter. now rewrite fold_left_app. Qed.

(** The keys of a counter are the distinct values in the order they
    were first seen. *)
Lemma Counter_keys l : keys (Counter l) = uniq_preserve l.
Proof.
  induction l as [|x l IH] using rev_ind; [reflexivity|].
  rewrite Counter_snoc. unfold counter_add.
  rewrite keys_update, keys_setdefault, IH, mem_uniq.
  unfold uniq_preserve. rewrite uniq_from_snoc. simpl.
  destruct (mem x l); [now rewrite app_nil_r | reflexivity].
Qed.

(** Each key is stored with the number of its occurrences. *)
Lemma Counter_get y l :
  od_get y (Counter l) = match count y l with O => None | n => Some n end.
Proof.
  induction l as [|x l IH] using rev_ind; [reflexivity|].
  rewrite Counter_snoc, count_snoc. unfold counter_add.
  rewrite od_get_update, od_get_setdefault, IH, (str_eqb_sym y x).
  destruct (str_eqb x y); destruct (count y l); simpl; try reflexivity;
    f_equal; lia.
Qed.

Lemma Counter_NoDup l : NoDup (keys (Counter l)).
Proof. rewrite Counter_keys. apply uniq_from_NoDup. Qed.

Lemma Counter_In k n l : In (k, n) (Counter l) <-> n = count k l /\ n <> O.
Proof.
  split.
  - intros H. apply od_get_NoDup in H; [|apply Counter_NoDup].
    rewrite Counter_get in H. destruct (count k l); [discriminate|].
    injection H as <-. split; [reflexivity | discriminate].
  - intros [-> H]. apply od_get_In. rewrite Counter_get.
    now destruct (count k l).
Qed.

(** [max] returns the first item of the largest count: the items
    before it have a strictly smaller count. *)
Lemma max_count_split best items :
  exists pre post,
    best :: items = pre ++ max_count best items :: post /\
    (forall it, In it pre -> (snd it < snd (max_count best items))%nat) /\
    (forall it, In it post -> (snd it <= snd (max_count best items))%nat).
Proof.
  revert best. induction items as [|it items IH]; intros best.
  - exists [], []. simpl. repeat split; intros ? [].
  - simpl. destruct (snd best <? snd it)%nat eqn:E.
    + apply Nat.ltb_lt in E.
      destruct (IH it) as [pre [post [Heq [Hpre Hpost]]]].
      exists (best :: pre), post. split; [simpl; now rewrite Heq|].
      split; [|assumption].
      assert (Hit : (snd it <= snd (max_count it items))%nat).
      { destruct pre as [|p pre]; simpl in Heq; injection Heq as Hhd _.
        - rewrite <- Hhd. constructor.
        - subst p. apply Nat.lt_le_incl, Hpre. now left. }
      intros x [<- | Hx]; [lia | now apply Hpre].
    + apply Nat.ltb_ge in E.
      destruct (IH best) as [pre [post [Heq [Hpre Hpost]]]].
      destruct pre as [|p pre]; simpl in Heq; injection Heq as Hhd Htl.
      * exists [], (it :: items). rewrite <- Hhd. simpl.
        split; [reflexivity|]. split; [intros ? []|].
        intros x [<- | Hx]; [assumption|].
        rewrite Hhd. apply Hpost. rewrite <- Htl. exact Hx.
      * subst p. exists (best :: it :: pre), post.
        split; [simpl; do 2 f_equal; exact Htl|]. split; [|assumption].
        assert (Hb : (snd best < snd (max_count best items))%nat)
          by (apply Hpre; now left).
        intros x [<- | [<- | Hx]]; [assumption | lia | apply Hpre; now right].
Qed.

Lemma sorted_after (f : pystr -> nat) pre r post v :
  StronglySorted lt (map f (pre ++ r :: post)) -> In v post -> (f r < f v)%nat.
Proof.
  induction pre as [|p pre IH]; simpl; intros H Hv.
  - inversion H as [|? ? _ Hall]; subst. rewrite Forall_forall in Hall.
    apply Hall. now apply in_map.
  - inversion H; subst. now apply IH.
Qed.

Lemma most_common_none values :
  existsb nonempty values = false -> most_common values = [].
Proof.
  intros H. unfold most_common.
  replace (filter nonempty values) with (@nil pystr); [reflexivity|].
  symmetry. induction values as [|v values IH]; [reflexivity|].
  simpl in *. apply orb_false_iff in H as [-> H]. now apply IH.
Qed.

Lemma most_common_winner values :
  existsb nonempty values = true -> majority_winner values (most_common values).
Proof.
  intros Hex. unfold most_common.
  remember (filter nonempty values) as vs eqn:Evs.
  assert (Hvs : forall v, In v vs <-> In v values /\ nonempty v = true)
    by (intros v; subst vs; apply filter_In).
  assert (Hcnt : forall v, nonempty v = true -> count v vs = count v values)
    by (intros v Hv; subst vs; now apply count_nonempty).
  destruct (Counter vs) as [|first rest] eqn:Ec.
  { exfalso. apply existsb_exists in Hex as [v [Hv Hne]].
    assert (Hin : In v vs) by now apply Hvs.
    apply count_pos in Hin.
    assert (Hc : In (v, count v vs) (Counter vs)) by (apply Counter_In; split; lia).
    rewrite Ec in Hc. destruct Hc. }
  destruct (max_count_split first rest) as [pre [post [Heq [Hpre Hpost]]]].
  destruct (max_count first rest) as [r n] eqn:Erp.
  assert (Hrp : In (r, n) (Counter vs)).
  { rewrite Ec, Heq. apply in_or_app. right. now left. }
  simpl in *.
  apply Counter_In in Hrp as [Hn Hn0].
  assert (Hr : In r vs) by (apply count_pos; lia).
  apply Hvs in Hr as [Hr Hrne].
  rewrite (Hcnt r Hrne) in Hn.
  split; [now apply nonempty_true|]. split; [assumption|].
  intros v Hvne Hv. apply nonempty_true in Hvne.
  assert (Hvin : In v vs) by now apply Hvs.
  assert (Hc : In (v, count v values) (Counter vs)).
  { apply Counter_In. rewrite (Hcnt v Hvne).
    split; [reflexivity|]. apply count_pos in Hvin.
    rewrite (Hcnt v Hvne) in Hvin. lia. }
  rewrite Ec, Heq in Hc. apply in_app_or in Hc as [Hc | [Hc | Hc]].
  - apply Hpre in Hc. simpl in Hc. split; lia.
  - injection Hc as -> _. split; [lia | congruence].
  - pose proof (Hpost _ Hc) as Hle. simpl in Hle. split; [lia|].
    intros _ _. apply (index_filter_mono nonempty r v values Hrne Hvne).
    rewrite <- Evs.
    pose proof (uniq_from_sorted [] vs) as Hs. fold (uniq_preserve vs) in Hs.
    rewrite <- Counter_keys, Ec, Heq in Hs. unfold keys in Hs.
    rewrite map_app in Hs. simpl in Hs.
    apply (sorted_after (fun x => index_of x vs) _ _ _ v Hs).
    apply in_map_iff. now exists (v, count v values).
Qed.

(** The winner is unique: the vote is a function of the list. *)
Lemma majority_winner_unique values r1 r2 :
  majority_winner values r1 -> majority_winner values r2 -> r1 = r2.
Proof.
  intros [H1 [I1 W1]] [H2 [I2 W2]].
  destruct (str_eq_dec r1 r2) as [E | N]; [assumption | exfalso].
  destruct (W1 r2 H2 I2) as [L1 T1], (W2 r1 H1 I1) as [L2 T2].
  assert (E : count r1 values = count r2 values) by lia.
  specialize (T1 (eq_sym E) (fun e => N (eq_sym e))). specialize (T2 E N). lia.
Qed.

Lemma most_common_nonempty values :
  nonempty (most_common values) = existsb nonempty values.
Proof.
  destruct (existsb nonempty values) eqn:E.
  - apply nonempty_true. now destruct (most_common_winner values E).
  - now rewrite most_common_none.
Qed.
End MajorityVote.

(** ** The type classifier *)

Lemma starts_with_spec n h : starts_with n h = true <-> exists post, h = n ++ post.
Proof.
  revert h. induction n as [|x n IH]; intros h; simpl.
  - split; [intros _; now exists h | reflexivity].
  - destruct h as [|y h].
    + split; [discriminate | intros [post H]; discriminate].
    + rewrite andb_true_iff, N.eqb_eq, IH. split.
      * intros [-> [post ->]]. now exists post.
      * intros [post H]. injection H as -> ->. split; [reflexivity | now exists post].
Qed.

Lemma contains_spec n h : contains n h = true <-> occurs_in n h.
Proof.
  unfold occurs_in. induction h as [|c h IH]; simpl.
  - rewrite orb_false_r, starts_with_spec. split.
    + intros [post H]. now exists [], post.
    + intros [pre [post H]]. destruct pre; [now exists post | discriminate].
  - rewrite orb_true_iff, starts_with_spec, IH. split.
    + intros [[post H] | [pre [post H]]].
      * now exists [], post.
      * exists (c :: pre), post. simpl. now rewrite H.
    + intros [pre [post H]]. destruct pre as [|c' pre].
      * left. now exists post.
      * right. injection H as _ H. now exists pre, post.
Qed.

Section Classifier.
Context {U : UnicodeDB}.

Lemma type_key_nil : type_key [] = [].
Proof.
  unfold type_key. cbv zeta.
  change (clean_spaces []) with (@nil char).
  now rewrite (lower_ascii []).
Qed.

Lemma norm_type_nil : norm_type [] = lit "Unknown".
Proof. unfold norm_type. cbv zeta. now rewrite type_key_nil. Qed.

Lemma apartment_family_iff k :
  apartment_family k <->
  mem k (map lit ["apt";"apts";"apartment";"apartments"]%string)
  || contains (lit "apartment") k = true.
Proof. unfold apartment_family. now rewrite orb_true_iff, mem_In, contains_spec. Qed.

Lemma residential_family_iff k :
  residential_family k <->
  mem k (map lit ["residential";"residence";"home";"homes";"housing"]%string)
  || contains (lit "residential") k = true.
Proof. unfold residential_family. now rewrite orb_true_iff, mem_In, contains_spec. Qed.

Lemma business_family_iff k :
  business_family k <->
  mem k (map lit ["business";"businesses";"commercial"]%string)
  || contains (lit "business") k || contains (lit "commercial") k = true.
Proof.
  unfold business_family.
  rewrite !orb_true_iff, mem_In, !contains_spec. tauto.
Qed.

(** The rules of [norm_type] in the order the code tries them. *)
Lemma norm_type_rules t :
  let k := type_key t in
  (k = [] -> norm_type t = lit "Unknown") /\
  (k <> [] -> apartment_family k -> norm_type t = lit "Apartments") /\
  (k <> [] -> ~ apartment_family k -> residential_family k ->
   norm_type t = lit "Residential") /\
  (k <> [] -> ~ apartment_family k -> ~ residential_family k -> business_family k ->
   norm_type t = lit "Businesses") /\
  (k <> [] -> ~ apartment_family k -> ~ residential_family k -> ~ business_family k ->
   occurs_in (lit "student") k -> norm_type t = lit "Residential") /\
  (k <> [] -> ~ apartment_family k -> ~ residential_family k -> ~ business_family k ->
   ~ occurs_in (lit "student") k -> norm_type t = title_case_smart k).
Proof.
  cbv zeta. unfold norm_type. cbv zeta. generalize (type_key t) as k. intros k.
  rewrite (apartment_family_iff k), (residential_family_iff k), (business_family_iff k).
  rewrite <- (contains_spec (lit "student") k), <- (nonempty_true k).
  destruct (nonempty k) eqn:Hk.
  - simpl negb. cbv iota.
    repeat match goal with
           | |- context [if ?b then _ else _] => destruct b
           end;
      repeat split; intros; try reflexivity; try congruence; subst; discriminate.
  - destruct k; [|discriminate]. simpl.
    repeat split; intros; try reflexivity; congruence.
Qed.
End Classifier.

(** ** White space cleaning, once and again *)

Section CleanSpacesAgain.
Context {U : UnicodeDB}.

Lemma clean_spaces_tokens toks :
  forallb (token py_isspace) toks = true ->
  clean_spaces (join [32] toks) = join [32] toks.
Proof.
  intros H. rewrite clean_spaces_join. f_equal.
  apply split_on_join; [apply isspace_32 | assumption].
Qed.

Lemma split_ws_clean_spaces s : split_ws (clean_spaces s) = split_ws s.
Proof.
  rewrite clean_spaces_join. unfold split_ws at 1.
  apply split_on_join; [apply isspace_32 | apply split_ws_all_tokens].
Qed.

Lemma clean_spaces_idem s : clean_spaces (clean_spaces s) = clean_spaces s.
Proof.
  rewrite (clean_spaces_join s). apply clean_spaces_tokens, split_ws_all_tokens.
Qed.

(** X1. [clean_spaces] returns the words of its argument joined by
    single spaces -- its final [strip()] removes nothing --, keeps the
    words, each non-empty and free of white space, and is idempotent. *)
Theorem clean_spaces_words_idempotent (s : pystr) :
  clean_spaces s = join (lit " ") (split_ws s) /\
  split_ws (clean_spaces s) = split_ws s /\
  forallb (token py_isspace) (split_ws s) = true /\
  clean_spaces (clean_spaces s) = clean_spaces s.
Proof.
  split; [apply clean_spaces_join|].
  split; [apply split_ws_clean_spaces|].
  split; [apply split_ws_all_tokens | apply clean_spaces_idem].
Qed.
End CleanSpacesAgain.

(** ** Keys as runs of kept characters *)

Lemma split_on_app_sep (q : char -> bool) a c b :
  q c = true -> split_on q (a ++ c :: b) = split_on q a ++ split_on q b.
Proof.
  intros Hc. induction a as [|x a IH]; simpl.
  - now rewrite Hc.
  - rewrite IH. destruct (q x); [reflexivity|].
    destruct (split_on q a) as [|w ws] eqn:E; [|reflexivity].
    now apply split_on_not_nil in E.
Qed.

Lemma split_refine (p q : char -> bool) x :
  (forall c, p c = true -> q c = true) ->
  split_on q x = flat_map (split_on q) (split_on p x).
Proof.
  intros Hpq. induction x as [|c x IH]; [reflexivity|].
  simpl. destruct (p c) eqn:Hp.
  - rewrite (Hpq c Hp). simpl. now rewrite IH.
  - destruct (split_on p x) as [|w ws] eqn:E; [now apply split_on_not_nil in E|].
    simpl in *. rewrite IH.
    destruct (q c); [reflexivity|].
    destruct (split_on q w) as [|w1 ws1] eqn:E1; [now apply split_on_not_nil in E1|].
    reflexivity.
Qed.

Lemma filter_flat_map (A B : Type) (f : B -> bool) (g : A -> list B) (l : list A) :
  filter f (flat_map g l) = flat_map (fun x => filter f (g x)) l.
Proof.
  induction l as [|x l IH]; [reflexivity|].
  simpl. now rewrite filter_app, IH.
Qed.

Lemma flat_map_filter_nonempty (g : pystr -> list pystr) (l : list pystr) :
  g [] = [] -> flat_map g (filter nonempty l) = flat_map g l.
Proof.
  intros Hg. induction l as [|x l IH]; [reflexivity|].
  simpl. destruct x as [|c x]; simpl; [now rewrite Hg | now rewrite IH].
Qed.

Lemma runs_nil keep : runs keep [] = [].
Proof. reflexivity. Qed.

Lemma runs_refine (p keep : char -> bool) x :
  (forall c, p c = true -> keep c = false) ->
  runs keep x = flat_map (runs keep) (filter nonempty (split_on p x)).
Proof.
  intros H. rewrite flat_map_filter_nonempty by reflexivity.
  unfold runs. rewrite <- filter_flat_map. f_equal.
  apply split_refine. intros c Hc. now rewrite (H c Hc).
Qed.

Lemma runs_join keep c toks :
  keep c = false -> runs keep (join [c] toks) = flat_map (runs keep) toks.
Proof.
  intros Hc. induction toks as [|t toks IH]; [reflexivity|].
  destruct toks as [|t' toks].
  - simpl. now rewrite app_nil_r.
  - change (join [c] (t :: t' :: toks)) with (t ++ c :: join [c] (t' :: toks)).
    unfold runs at 1. rewrite split_on_app_sep by now rewrite Hc.
    rewrite filter_app. fold (runs keep t). fold (runs keep (join [c] (t' :: toks))).
    now rewrite IH.
Qed.

Lemma runs_tokens keep toks :
  forallb (key_token keep) toks = true -> flat_map (runs keep) toks = toks.
Proof.
  induction toks as [|t toks IH]; [reflexivity|].
  simpl. intros H. apply andb_true_iff in H as [Ht Hts].
  rewrite (IH Hts). unfold key_token in Ht. apply andb_true_iff in Ht as [Hne Hk].
  replace (runs keep t) with [t]; [reflexivity|].
  unfold runs. rewrite <- (app_nil_r t) at 2.
  rewrite split_on_free_app.
  - simpl. now rewrite app_nil_r, Hne.
  - unfold sep_free. revert Hk. apply forallb_imp. intros c Hc. now rewrite Hc.
Qed.

Lemma runs_re_sub keep b x :
  keep 32 = false ->
  runs keep (re_sub_aux keep b x) = runs keep x /\
  hd [] (split_on (fun c => negb (keep c)) (re_sub_aux keep false x)) =
  hd [] (split_on (fun c => negb (keep c)) x).
Proof.
  intros K. revert b. induction x as [|c x IH]; intros b; [now split|].
  simpl re_sub_aux. destruct (keep c) eqn:Hc.
  - destruct (IH false) as [IHr IHh].
    unfold runs in *. simpl. rewrite Hc. simpl.
    destruct (split_on (fun c0 => negb (keep c0)) (re_sub_aux keep false x))
      as [|w ws] eqn:E; [now apply split_on_not_nil in E|].
    destruct (split_on (fun c0 => negb (keep c0)) x)
      as [|w' ws'] eqn:E'; [now apply split_on_not_nil in E'|].
    simpl in IHh. subst w'. simpl in *.
    split; [|reflexivity]. f_equal.
    destruct w; simpl in IHr; [assumption | now injection IHr].
  - destruct (IH true) as [IHr _]. unfold runs in *.
    split.
    + destruct b; simpl; rewrite ?K, Hc; simpl; exact IHr.
    + simpl. now rewrite K, Hc.
Qed.

Lemma runs_key_tokens keep x : forallb (key_token keep) (runs keep x) = true.
Proof.
  apply forallb_Forall.
  assert (H : forallb (fun _ => true) x = true) by now apply forallb_forall.
  pose proof (split_fields_tokens (fun c => negb (keep c)) _ x H) as F.
  eapply Forall_impl; [|exact F]. clear F.
  intros w [_ Hw]. unfold token, sep_free in Hw. unfold key_token.
  apply andb_true_iff in Hw as [-> Hf]. simpl.
  revert Hf. apply forallb_imp. intros c Hc. now rewrite negb_involutive in Hc.
Qed.

Lemma split_on_map (f : char -> char) (q : char -> bool) y :
  split_on q (map f y) = map (map f) (split_on (fun c => q (f c)) y).
Proof.
  induction y as [|c y IH]; [reflexivity|].
  simpl. rewrite IH. destruct (q (f c)); [reflexivity|].
  now destruct (split_on (fun c0 => q (f c0)) y).
Qed.

Lemma runs_map (f : char -> char) keep y :
  runs keep (map f y) = map (map f) (runs (fun c => keep (f c)) y).
Proof.
  unfold runs. rewrite split_on_map.
  induction (split_on (fun c => negb (keep (f c))) y) as [|w ws IH]; [reflexivity|].
  simpl. destruct w; simpl; now rewrite IH.
Qed.

Section KeysAsRuns.
Context {U : UnicodeDB}.

Lemma runs_clean_spaces keep x :
  (forall c, py_isspace c = true -> keep c = false) ->
  runs keep (clean_spaces x) = runs keep x.
Proof.
  intros H. rewrite clean_spaces_join.
  rewrite runs_join by (apply H, isspace_32).
  symmetry. now apply runs_refine.
Qed.

Lemma space_not_kept keep c :
  (forall c, keep c = true -> is_az09 c = true) ->
  py_isspace c = true -> keep c = false.
Proof.
  intros Hk Hs. destruct (keep c) eqn:E; [|reflexivity].
  apply Hk in E. rewrite isspace_ascii in Hs by now apply az09_ascii.
  rewrite az09_not_space in Hs by assumption. discriminate.
Qed.

Lemma clean_re_sub_runs keep x :
  (forall c, keep c = true -> is_az09 c = true) ->
  clean_spaces (re_sub_to_space keep x) = join [32] (runs keep x).
Proof.
  intros Hk. destruct (clean_re_sub_shaped keep x) as [toks [Ht E]].
  assert (R : runs keep (clean_spaces (re_sub_to_space keep x)) = toks).
  { rewrite E. etransitivity; [apply runs_join; now apply keep_not_32|].
    now apply runs_tokens. }
  rewrite E. f_equal. rewrite <- R.
  rewrite runs_clean_spaces by (intros c; now apply space_not_kept).
  apply runs_re_sub. now apply keep_not_32.
Qed.

(** X2. Each key is the runs of kept characters of the lowered text,
    joined by single spaces: the runs of [a-z0-9] for a community key,
    the same runs with the abbreviations expanded for an address key,
    the runs of [a-z] for the key of the type classifier. *)
Theorem keys_are_runs :
  (forall name,
      norm_community name =
      join (lit " ") (runs is_az09 (py_lower (strip_accents (clean_spaces name))))) /\
  (forall addr,
      norm_address addr =
      join (lit " ")
           (expand_abbrev_tokens
              (runs is_az09 (py_lower (strip_accents (clean_spaces addr)))))) /\
  (forall t,
      type_key t = join (lit " ") (runs is_lower_az (py_lower (clean_spaces t)))).
Proof.
  split; [|split].
  - intros name. unfold norm_community. cbv zeta.
    now rewrite (clean_re_sub_runs is_az09 _ az09_self).
  - intros addr. unfold norm_address. cbv zeta.
    rewrite (clean_re_sub_runs is_az09 _ az09_self).
    now rewrite (split_space_shaped _ az09_self) by apply runs_key_tokens.
  - intros t. unfold type_key. cbv zeta.
    now rewrite (clean_re_sub_runs is_lower_az _ az_az09).
Qed.

Lemma lower_kept_not_space c :
  py_isspace c = true -> is_az09 (ascii_lower c) = false.
Proof.
  intros Hs. destruct (is_az09 (ascii_lower c)) eqn:E; [|reflexivity].
  assert (Ha : is_ascii c = true) by (clear Hs; char_cases).
  rewrite isspace_ascii in Hs by assumption. clear Ha. char_cases.
Qed.

Lemma norm_community_ascii_runs x :
  forallb is_ascii x = true ->
  norm_community x = join [32] (runs is_az09 (map ascii_lower x)).
Proof.
  intros H. unfold norm_community. cbv zeta.
  rewrite (clean_re_sub_runs is_az09 _ az09_self). f_equal.
  pose proof (clean_spaces_chars is_ascii x eq_refl H) as Hc.
  rewrite strip_accents_ascii, lower_ascii by assumption.
  rewrite !runs_map. f_equal.
  apply runs_clean_spaces. intros c. apply lower_kept_not_space.
Qed.

Lemma map_lower_upper x : map ascii_lower (map ascii_upper x) = map ascii_lower x.
Proof.
  rewrite map_map. apply map_ext. intros c. char_cases.
Qed.

Lemma map_lower_lower x : map ascii_lower (map ascii_lower x) = map ascii_lower x.
Proof.
  rewrite map_map. apply map_ext. intros c. char_cases.
Qed.

Lemma map_upper_ascii x : forallb is_ascii x = true -> forallb is_ascii (map ascii_upper x) = true.
Proof.
  rewrite !forallb_forall. intros H c Hc.
  apply in_map_iff in Hc as [c' [<- Hc']]. now apply ascii_upper_ascii, H.
Qed.

(** X3. On ASCII text the community key is the runs of letters and
    digits of the lower-cased text joined by single spaces, so it does
    not depend on the case of the letters. *)
Theorem community_key_of_ascii_text (x : pystr) :
  forallb is_ascii x = true ->
  norm_community x = join (lit " ") (runs is_az09 (map ascii_lower x)) /\
  norm_community (map ascii_upper x) = norm_community x /\
  norm_community (map ascii_lower x) = norm_community x.
Proof.
  intros H. split; [now apply norm_community_ascii_runs|]. split.
  - rewrite !norm_community_ascii_runs by (try apply map_upper_ascii; assumption).
    now rewrite map_lower_upper.
  - rewrite !norm_community_ascii_runs by (try apply map_lower_ascii; assumption).
    now rewrite map_lower_lower.
Qed.
End KeysAsRuns.

(** ** Keys are fixed points *)

Lemma abbrev_values_fixed :
  forallb (fun v => str_eqb (od_get_default v v abbrev) v) (map snd abbrev) = true.
Proof. reflexivity. Qed.

Lemma expand_lookup_fixed t :
  let r := od_get_default t t abbrev in od_get_default r r abbrev = r.
Proof.
  cbv zeta. destruct (od_get_default_cases t t abbrev) as [E | Hin].
  - now rewrite !E.
  - pose proof abbrev_values_fixed as H. rewrite forallb_forall in H.
    now apply str_eqb_eq, H.
Qed.

Section FixedPoints.
Context {U : UnicodeDB}.

Lemma expand_tokens_fixed toks :
  forallb (key_token is_az09) toks = true ->
  expand_abbrev_tokens (expand_abbrev_tokens toks) = expand_abbrev_tokens toks.
Proof.
  intros H. pose proof (expand_tokens toks H) as H'.
  unfold expand_abbrev_tokens in *. rewrite map_map. apply map_ext_in.
  intros t Ht. rewrite forallb_forall in H, H'.
  assert (Hl : py_lower t = t).
  { rewrite lower_ascii by (apply (key_token_ascii _ az09_self); now apply H).
    apply (key_token_lower _ az09_self). now apply H. }
  rewrite Hl.
  assert (Hr : key_token is_az09 (od_get_default t t abbrev) = true).
  { apply H'. apply in_map_iff. exists t. now rewrite Hl. }
  rewrite lower_ascii by now apply (key_token_ascii _ az09_self).
  rewrite (key_token_lower _ az09_self _ Hr).
  apply expand_lookup_fixed.
Qed.

Lemma norm_address_tokens addr :
  exists toks,
    forallb (key_token is_az09) toks = true /\
    norm_address addr = join [32] (expand_abbrev_tokens toks).
Proof.
  unfold norm_address. cbv zeta.
  destruct (clean_re_sub_shaped is_az09
              (py_lower (strip_accents (clean_spaces addr)))) as [toks [Ht E]].
  rewrite E, (split_space_shaped _ az09_self) by assumption.
  now exists toks.
Qed.

Lemma norm_address_idem addr : norm_address (norm_address addr) = norm_address addr.
Proof.
  destruct (norm_address_tokens addr) as [toks [Ht E]]. rewrite E.
  pose proof (expand_tokens toks Ht) as Ht'.
  unfold norm_address at 1. cbv zeta.
  rewrite (normalise_shaped az09_self) by now exists (expand_abbrev_tokens toks).
  rewrite (split_space_shaped _ az09_self) by assumption.
  now rewrite expand_tokens_fixed.
Qed.

(** X4. Address-key normalisation is idempotent, and an address key is
    also a fixed point of the community-key normalisation: keys are
    stable under being normalised again. *)
Theorem norm_address_idempotent (addr : pystr) :
  norm_address (norm_address addr) = norm_address addr /\
  norm_community (norm_address addr) = norm_address addr.
Proof.
  split; [apply norm_address_idem|].
  apply (normalise_shaped az09_self), norm_address_shaped.
Qed.

(** *** Display names *)

Lemma lower_az09_alnum c : is_az09 (ascii_lower c) = true -> is_alnum c = true.
Proof. unfold is_alnum. intros H. char_cases. Qed.

Lemma alnum_no_space c : is_alnum c = true -> py_isspace c = false.
Proof.
  intros H. assert (Ha : is_ascii c = true) by (unfold is_alnum in H; char_cases).
  rewrite isspace_ascii by assumption. unfold is_alnum in H. clear Ha. char_cases.
Qed.

Lemma alnum_ascii c : is_alnum c = true -> is_ascii c = true.
Proof. unfold is_alnum. intros H. char_cases. Qed.

(** Title-casing a key token gives a non-empty word of letters and
    digits. *)
Lemma title_word_alnum keep i t :
  (forall c, keep c = true -> is_az09 c = true) ->
  key_token keep t = true ->
  nonempty (title_word i t) = true /\ forallb is_alnum (title_word i t) = true.
Proof.
  intros Hk Ht. pose proof (title_word_lower _ Hk i t Ht) as Hl.
  unfold key_token in Ht. apply andb_true_iff in Ht as [Hne Hall].
  split.
  - destruct (title_word i t); [|reflexivity].
    simpl in Hl. subst t. discriminate.
  - apply forallb_forall. intros c Hc.
    apply lower_az09_alnum. apply Hk.
    rewrite forallb_forall in Hall. apply Hall.
    rewrite <- Hl. now apply in_map.
Qed.

Lemma title_words_alnum keep i toks :
  (forall c, keep c = true -> is_az09 c = true) ->
  forallb (key_token keep) toks = true ->
  forallb (fun w => nonempty w && forallb is_alnum w) (title_words i toks) = true.
Proof.
  intros Hk. revert i. induction toks as [|t toks IH]; intros i H; [reflexivity|].
  simpl in H. apply andb_true_iff in H as [Ht Hts].
  simpl. destruct (@title_word_alnum keep i t Hk Ht) as [-> ->]. simpl. now apply IH.
Qed.

Lemma alnum_word_token w :
  nonempty w && forallb is_alnum w = true -> token py_isspace w = true.
Proof.
  intros H. apply andb_true_iff in H as [Hne Hall].
  unfold token, sep_free. rewrite Hne. simpl.
  revert Hall. apply forallb_imp. intros c Hc. now rewrite alnum_no_space.
Qed.

(** The display name of a key: words of letters and digits joined by
    single spaces, which lower-case to the key. *)
Lemma title_case_display keep k :
  (forall c, keep c = true -> is_az09 c = true) ->
  key_shaped keep k ->
  exists words,
    forallb (fun w => nonempty w && forallb is_alnum w) words = true /\
    title_case_smart k = join [32] words /\
    map ascii_lower (title_case_smart k) = k.
Proof.
  intros Hk Hs. pose proof (title_case_lower Hk Hs) as Hl.
  destruct Hs as [toks [Ht ->]].
  exists (title_words 0 toks). split; [now apply (@title_words_alnum keep 0 toks Hk)|].
  split; [|assumption].
  unfold title_case_smart. now rewrite (words_of_shaped _ Hk).
Qed.

Lemma title_case_clean keep k :
  (forall c, keep c = true -> is_az09 c = true) ->
  key_shaped keep k ->
  clean_spaces (title_case_smart k) = title_case_smart k /\
  forallb is_ascii (title_case_smart k) = true /\
  py_lower (title_case_smart k) = k.
Proof.
  intros Hk Hs. destruct (@title_case_display keep k Hk Hs) as [words [Hw [E Hl]]].
  assert (Ha : forallb is_ascii (title_case_smart k) = true).
  { rewrite E. apply forallb_join; [reflexivity|].
    revert Hw. apply forallb_imp. intros w Hw'.
    apply andb_true_iff in Hw' as [_ Hw'].
    revert Hw'. apply forallb_imp. apply alnum_ascii. }
  split; [|split; [assumption | now rewrite lower_ascii]].
  rewrite E. apply clean_spaces_tokens.
  revert Hw. apply forallb_imp. apply alnum_word_token.
Qed.

Lemma norm_community_title k :
  key_shaped is_az09 k -> norm_community (title_case_smart k) = k.
Proof.
  intros Hs. destruct (@title_case_clean is_az09 k az09_self Hs) as [Hc [Ha Hl]].
  unfold norm_community. cbv zeta.
  rewrite Hc, strip_accents_ascii, Hl by assumption.
  rewrite (re_sub_shaped az09_self Hs). now apply (clean_spaces_shaped az09_self).
Qed.

Lemma type_key_title k :
  key_shaped is_lower_az k -> type_key (title_case_smart k) = k.
Proof.
  intros Hs. destruct (@title_case_clean is_lower_az k az_az09 Hs) as [Hc [Ha Hl]].
  unfold type_key. cbv zeta. rewrite Hc, Hl.
  rewrite (re_sub_shaped az_az09 Hs). now apply (clean_spaces_shaped az_az09).
Qed.

(** X5. The display name of a community is its key with some letters
    capitalised: it lower-cases to the key and normalises back to it,
    so two keys have the same display name only when they are equal. *)
Theorem display_name_round_trip (name1 name2 : pystr) :
  let k1 := norm_community name1 in
  let k2 := norm_community name2 in
  map ascii_lower (title_case_smart k1) = k1 /\
  norm_community (title_case_smart k1) = k1 /\
  (title_case_smart k1 = title_case_smart k2 <-> k1 = k2).
Proof.
  cbv zeta. pose proof (norm_community_shaped name1) as H1.
  pose proof (norm_community_shaped name2) as H2.
  split; [now apply (title_case_lower az09_self)|].
  split; [now apply norm_community_title|].
  split; [now apply (title_case_inj az09_self) | now intros ->].
Qed.
End FixedPoints.

(** ** The classifier on its own output *)

Section ClassifierAgain.
Context {U : UnicodeDB}.

Lemma norm_type_classify t : norm_type t = classify_key (type_key t).
Proof. reflexivity. Qed.

Lemma classify_key_cases k :
  In (classify_key k) categories \/
  (nonempty k = true /\ classify_key k = title_case_smart k).
Proof.
  unfold classify_key, categories.
  destruct (nonempty k) eqn:Hk; simpl negb; cbv iota; [|left; now left].
  repeat match goal with
         | |- context [if ?b then _ else _] => destruct b
         end;
    try (left; simpl; tauto).
  right. now split.
Qed.

Lemma title_case_nonempty keep k :
  (forall c, keep c = true -> is_az09 c = true) ->
  key_shaped keep k -> nonempty k = true -> nonempty (title_case_smart k) = true.
Proof.
  intros Hk Hs Hne. pose proof (title_case_lower Hk Hs) as Hl.
  destruct (title_case_smart k); [|reflexivity].
  simpl in Hl. subst k. discriminate.
Qed.

Lemma categories_fixed c : In c categories -> norm_type c = c.
Proof.
  unfold categories. simpl.
  intros [<- | [<- | [<- | [<- | []]]]]; now rewrite norm_type_ascii.
Qed.

Lemma categories_nonempty c : In c categories -> nonempty c = true.
Proof.
  unfold categories. simpl. intros [<- | [<- | [<- | [<- | []]]]]; reflexivity.
Qed.

Lemma norm_type_nonempty t : nonempty (norm_type t) = true.
Proof.
  rewrite norm_type_classify.
  destruct (classify_key_cases (type_key t)) as [H | [Hne ->]].
  - now apply categories_nonempty.
  - apply (@title_case_nonempty is_lower_az); [exact az_az09 | apply type_key_shaped | exact Hne].
Qed.

Lemma norm_type_idem t : norm_type (norm_type t) = norm_type t.
Proof.
  rewrite (norm_type_classify t).
  destruct (classify_key_cases (type_key t)) as [H | [Hne E]].
  - now apply categories_fixed.
  - rewrite E, norm_type_classify.
    rewrite (type_key_title (type_key_shaped t)). exact E.
Qed.

(** X6. The classifier never returns the empty string: its result is
    one of the four fixed categories or the title-cased key, which is
    non-empty when it is returned. *)
Theorem norm_type_never_empty (t : pystr) :
  nonempty (norm_type t) = true /\
  (In (norm_type t) categories \/
   (nonempty (type_key t) = true /\ norm_type t = title_case_smart (type_key t))).
Proof.
  split; [apply norm_type_nonempty|].
  rewrite norm_type_classify. apply classify_key_cases.
Qed.

(** X7. The classifier is idempotent: classifying a classified type
    returns it unchanged. *)
Theorem norm_type_idempotent (t : pystr) : norm_type (norm_type t) = norm_type t.
Proof. apply norm_type_idem. Qed.
End ClassifierAgain.

(** ** Gate tokens: composition and round trip *)

Section GateTokensAgain.
Context {U : UnicodeDB}.

Lemma digit_runs_tokens s toks : digit_runs s toks -> forallb digit_token toks = true.
Proof.
  induction 1 as [gap Hgap | gap run rest toks Hgap Hne Hrun Hst _ IH]; [reflexivity|].
  simpl. unfold digit_token at 1. now rewrite Hne, Hrun, IH.
Qed.

Lemma findall_tokens raw : forallb digit_token (extract_gate_tokens raw) = true.
Proof. apply (digit_runs_tokens (s := raw)). now apply digit_runs_findall. Qed.

Lemma digit_runs_gap gap s toks :
  no_digit gap = true -> digit_runs s toks -> digit_runs (gap ++ s) toks.
Proof.
  induction gap as [|c gap IH]; intros Hg H; [exact H|].
  unfold no_digit in Hg. simpl in Hg. apply andb_true_iff in Hg as [Hc Hg].
  apply negb_true_iff in Hc. simpl. apply digit_runs_skip; [assumption|].
  now apply IH.
Qed.

Lemma digit_runs_app_sep a c b t1 t2 :
  re_digit c = false ->
  digit_runs a t1 -> digit_runs b t2 -> digit_runs (a ++ c :: b) (t1 ++ t2).
Proof.
  intros Hc Ha Hb.
  induction Ha as [gap Hgap | gap run rest toks Hgap Hne Hrun Hst _ IH].
  - simpl. apply digit_runs_gap; [assumption|]. now apply digit_runs_skip.
  - rewrite <- !app_assoc. simpl. apply runs_next; try assumption.
    destruct rest; simpl; assumption.
Qed.

Lemma findall_app_sep a c b :
  re_digit c = false ->
  extract_gate_tokens (a ++ c :: b) = extract_gate_tokens a ++ extract_gate_tokens b.
Proof.
  intros Hc. symmetry. apply digit_runs_findall.
  apply digit_runs_app_sep; [assumption | |]; now apply digit_runs_findall.
Qed.

Lemma findall_token t : digit_token t = true -> extract_gate_tokens t = [t].
Proof.
  intros H. unfold digit_token in H. apply andb_true_iff in H as [Hne Hd].
  rewrite <- (app_nil_r t) at 1.
  unfold extract_gate_tokens. now rewrite findall_run.
Qed.

Lemma space_no_digit : re_digit 32 = false.
Proof. now rewrite re_digit_ascii. Qed.

Lemma findall_join_tokens toks :
  forallb digit_token toks = true -> extract_gate_tokens (join [32] toks) = toks.
Proof.
  induction toks as [|t toks IH]; [reflexivity|].
  simpl forallb. intros H. apply andb_true_iff in H as [Ht Hts].
  destruct toks as [|t' toks]; [now apply findall_token|].
  change (join [32] (t :: t' :: toks)) with (t ++ 32 :: join [32] (t' :: toks)).
  rewrite findall_app_sep by apply space_no_digit.
  now rewrite findall_token, IH.
Qed.

Lemma uniq_from_tokens (q : pystr -> bool) seen items :
  forallb q items = true -> forallb q (uniq_from seen items) = true.
Proof.
  intros H. apply forallb_forall. intros x Hx.
  apply uniq_from_In in Hx as [Hx _]. rewrite forallb_forall in H. now apply H.
Qed.

Lemma flat_map_tokens gates :
  forallb digit_token (flat_map extract_gate_tokens gates) = true.
Proof.
  induction gates as [|g gates IH]; [reflexivity|].
  simpl. now rewrite forallb_app, findall_tokens, IH.
Qed.

(** X8. The tokens of a text are non-empty strings of digits; the
    tokens of two texts put together around a character that is no
    digit are the tokens of the first followed by those of the second;
    and joining tokens by single spaces loses nothing: the tokens of
    the joined text are the tokens again. *)
Theorem gate_tokens_compose_and_round_trip :
  (forall raw, forallb digit_token (extract_gate_tokens raw) = true) /\
  (forall a c b,
      re_digit c = false ->
      extract_gate_tokens (a ++ c :: b) = extract_gate_tokens a ++ extract_gate_tokens b) /\
  (forall toks,
      forallb digit_token toks = true ->
      extract_gate_tokens (join (lit " ") toks) = toks) /\
  (forall raw,
      extract_gate_tokens (join (lit " ") (extract_gate_tokens raw))
      = extract_gate_tokens raw).
Proof.
  split; [exact findall_tokens|].
  split; [exact findall_app_sep|].
  split; [exact findall_join_tokens|].
  intros raw. apply findall_join_tokens, findall_tokens.
Qed.

(** X9. The gate of an address group holds the codes of its members
    and no other: reading the tokens back from the gate text gives the
    distinct tokens of the members' gate strings in the order they were
    first met, so a token is in the gate exactly when some member's
    gate string has it. *)
Theorem group_gate_is_the_union (k : pystr) (a : agg) :
  extract_gate_tokens (ce_gate (aggregate k a))
  = uniq_preserve (flat_map extract_gate_tokens (gates a)) /\
  (forall t,
      In t (extract_gate_tokens (ce_gate (aggregate k a))) <->
      exists g, In g (gates a) /\ In t (extract_gate_tokens g)).
Proof.
  assert (E : extract_gate_tokens (ce_gate (aggregate k a))
              = uniq_preserve (flat_map extract_gate_tokens (gates a))).
  { simpl. apply findall_join_tokens, uniq_from_tokens, flat_map_tokens. }
  split; [exact E|].
  intros t. rewrite E. unfold uniq_preserve. rewrite uniq_from_In, in_flat_map.
  simpl. tauto.
Qed.
End GateTokensAgain.

(** ** Removing repeats, again *)

Section UniqAgain.

Lemma uniq_from_ext s1 s2 items :
  (forall x, mem x s1 = mem x s2) -> uniq_from s1 items = uniq_from s2 items.
Proof.
  revert s1 s2. induction items as [|y items IH]; intros s1 s2 H; [reflexivity|].
  simpl. rewrite (H y). destruct (mem y s2); [now apply IH|].
  f_equal. apply IH. intros x. unfold mem. simpl.
  fold (mem x s1). fold (mem x s2). now rewrite H.
Qed.

Lemma uniq_from_NoDup_id seen items :
  NoDup items -> (forall x, In x items -> ~ In x seen) -> uniq_from seen items = items.
Proof.
  revert seen. induction items as [|y items IH]; intros seen Hnd Hs; [reflexivity|].
  inversion Hnd as [|? ? Hy Hnd']; subst. simpl.
  replace (mem y seen) with false
    by (symmetry; apply mem_false, Hs; now left).
  f_equal. apply IH; [assumption|].
  intros x Hx [<- | Hin]; [contradiction|]. apply (Hs x); [now right | assumption].
Qed.

Lemma uniq_length seen items : (length (uniq_from seen items) <= length items)%nat.
Proof.
  revert seen. induction items as [|y items IH]; intros seen; [constructor|].
  simpl. destruct (mem y seen); simpl; [specialize (IH seen) | specialize (IH (y :: seen))]; lia.
Qed.

Lemma uniq_NoDup_id items : NoDup items -> uniq_preserve items = items.
Proof. intros H. apply uniq_from_NoDup_id; [assumption | intros x _ []]. Qed.

Lemma uniq_id_NoDup items : uniq_preserve items = items -> NoDup items.
Proof. intros <-. apply uniq_from_NoDup. Qed.

Lemma uniq_from_seen_lt seen items y :
  In y items -> mem y seen = true ->
  (length (uniq_from seen items) < length items)%nat.
Proof.
  revert seen. induction items as [|z items IH]; intros seen Hin Hy; [destruct Hin|].
  cbn [uniq_from length]. destruct (mem z seen) eqn:Ez.
  - pose proof (uniq_length seen items). lia.
  - cbn [length]. apply -> Nat.succ_lt_mono.
    destruct Hin as [-> | Hin]; [congruence|].
    apply IH; [assumption|].
    unfold mem in *. simpl. now rewrite Hy, orb_true_r.
Qed.

Lemma uniq_full_length items :
  length (uniq_preserve items) = length items -> NoDup items.
Proof.
  unfold uniq_preserve. generalize (@nil pystr) as seen.
  induction items as [|y items IH]; intros seen H; [constructor|].
  cbn [uniq_from length] in H. destruct (mem y seen) eqn:E.
  - pose proof (uniq_length seen items). lia.
  - cbn [length] in H. injection H as H.
    constructor; [|now apply (IH (y :: seen))].
    intros Hin.
    assert (L : (length (uniq_from (y :: seen) items) < length items)%nat); [|lia].
    apply uniq_from_seen_lt with (y := y); [assumption|].
    unfold mem. simpl. now rewrite str_eqb_refl.
Qed.

(** X10. [uniq_preserve] never lengthens a list, keeps a list without
    repeats as it is, changes every other list, and is idempotent. *)
Theorem uniq_preserve_fixes_distinct_lists (items : list pystr) :
  (length (uniq_preserve items) <= length items)%nat /\
  (uniq_preserve items = items <-> NoDup items) /\
  (length (uniq_preserve items) = length items <-> NoDup items) /\
  uniq_preserve (uniq_preserve items) = uniq_preserve items.
Proof.
  split; [apply uniq_length|].
  split; [split; [apply uniq_id_NoDup | apply uniq_NoDup_id]|].
  split.
  - split; [apply uniq_full_length | intros H; now rewrite uniq_NoDup_id].
  - apply uniq_NoDup_id, uniq_from_NoDup.
Qed.
End UniqAgain.

(** ** Dictionaries built key by key *)

Section DictByKeys.
Variable V : Type.

(** A dictionary is its keys, each with the value found under it. *)
Lemma odict_by_keys (f : pystr -> V) (d : odict V) :
  NoDup (keys d) -> (forall k, In k (keys d) -> od_get k d = Some (f k)) ->
  d = map (fun k => (k, f k)) (keys d).
Proof.
  induction d as [|[k v] d IH]; simpl; intros Hnd H; [reflexivity|].
  inversion Hnd as [|? ? Hk Hnd']; subst. f_equal.
  - specialize (H k (or_introl eq_refl)). rewrite str_eqb_refl in H.
    now injection H as ->.
  - apply IH; [assumption|]. intros k' Hk'.
    specialize (H k' (or_intror Hk')).
    destruct (str_eqb k k') eqn:E; [|exact H].
    apply str_eqb_eq in E. subst. contradiction.
Qed.

(** The keys after a loop whose body enters the key of each item when
    it is new: the keys before, then the new keys in the order first
    met. *)
Lemma keys_fold (A : Type) (step : odict V -> A -> odict V) (key : A -> pystr) xs :
  (forall m x, In x xs ->
     keys (step m x) = if mem (key x) (keys m) then keys m else keys m ++ [key x]) ->
  forall m,
    keys (fold_left step xs m) = keys m ++ uniq_from (keys m) (map key xs).
Proof.
  induction xs as [|x xs IH]; intros Hstep m.
  - simpl. now rewrite app_nil_r.
  - simpl. rewrite IH by (intros m' x' Hx'; apply Hstep; now right).
    rewrite Hstep by now left.
    destruct (mem (key x) (keys m)) eqn:E; [reflexivity|].
    rewrite <- app_assoc. simpl. do 2 f_equal.
    apply uniq_from_ext. intros y. unfold mem. rewrite existsb_app. simpl.
    rewrite orb_false_r. apply orb_comm.
Qed.

(** Of the items of a list without repeated keys, one has the key of
    [x]: [x] itself. *)
Lemma flat_map_unique (A B : Type) (key : A -> pystr) (f : A -> list B) l x :
  NoDup (map key l) -> In x l ->
  flat_map (fun y => if str_eqb (key y) (key x) then f y else []) l = f x.
Proof.
  induction l as [|y l IH]; simpl; intros Hnd Hin; [contradiction|].
  inversion Hnd as [|? ? Hy Hnd']; subst.
  assert (Hrest : forall z, In z l -> key z <> key y).
  { intros z Hz E. apply Hy. rewrite <- E. now apply in_map. }
  destruct Hin as [-> | Hin].
  - rewrite str_eqb_refl.
    replace (flat_map _ l) with (@nil B); [apply app_nil_r|].
    symmetry. apply flat_map_nil. intros z Hz.
    destruct (str_eqb (key z) (key x)) eqn:E; [|reflexivity].
    apply str_eqb_eq in E. now apply Hrest in Hz.
  - destruct (str_eqb (key y) (key x)) eqn:E.
    + apply str_eqb_eq in E. apply Hrest in Hin. congruence.
    + now apply IH.
Qed.
End DictByKeys.

(** ** One entry per address key *)

Section OnePerAddressKey.
Context {U : UnicodeDB}.

Lemma norm_address_nil : norm_address [] = [].
Proof. now rewrite norm_address_ascii. Qed.

Lemma title_case_nil : title_case_smart [] = [].
Proof. now rewrite title_case_smart_ascii. Qed.

Lemma by_addr_step_keys m e :
  keys (by_addr_step m e) =
  if mem (address_key e) (keys m) then keys m else keys m ++ [address_key e].
Proof.
  unfold by_addr_step. cbv zeta. rewrite keys_update. apply keys_setdefault.
Qed.

Lemma by_addr_keys_are entries :
  keys (fold_left by_addr_step entries []) = address_keys entries.
Proof.
  rewrite (keys_fold by_addr_step address_key entries)
    by (intros; apply by_addr_step_keys).
  reflexivity.
Qed.

Lemma group_members_In k entries :
  In k (map address_key entries) <-> group_members k entries <> [].
Proof.
  split.
  - intros H. apply in_map_iff in H as [e [E He]].
    assert (Hin : In e (group_members k entries)).
    { apply filter_In. split; [assumption|]. now apply str_eqb_eq. }
    intros Hnil. now rewrite Hnil in Hin.
  - intros H. destruct (group_members k entries) as [|e ms] eqn:E; [congruence|].
    assert (Hin : In e (group_members k entries)) by (rewrite E; now left).
    apply filter_In in Hin as [Hin Hk]. apply str_eqb_eq in Hk.
    apply in_map_iff. now exists e.
Qed.

Lemma by_addr_is entries :
  fold_left by_addr_step entries [] =
  map (fun k => (k, group_of k entries)) (address_keys entries).
Proof.
  rewrite <- by_addr_keys_are.
  apply odict_by_keys; [apply by_addr_keys; constructor|].
  intros k Hk. rewrite by_addr_get.
  destruct (group_members k entries) eqn:E; [|reflexivity].
  exfalso. revert Hk. apply od_get_None. rewrite by_addr_get. now rewrite E.
Qed.

Lemma clean_entries_by_keys entries :
  clean_entries entries =
  map (fun k => aggregate k (group_of k entries)) (address_keys entries).
Proof.
  unfold clean_entries. cbv zeta. rewrite by_addr_is, map_map. reflexivity.
Qed.

Lemma address_keys_In k entries :
  In k (address_keys entries) <-> In k (map address_key entries).
Proof.
  unfold address_keys, uniq_preserve. rewrite uniq_from_In. simpl. tauto.
Qed.

(** The address written for a group has the key of the group. *)
Lemma aggregate_address_key k entries :
  In k (map address_key entries) ->
  norm_address (ce_address (aggregate k (group_of k entries))) = k.
Proof.
  intros Hk. simpl.
  assert (Hall : forall a, In a (map entry_address (group_members k entries)) ->
                           norm_address a = k).
  { intros a Ha. apply in_map_iff in Ha as [e [<- He]].
    apply filter_In in He as [_ He]. now apply str_eqb_eq in He. }
  unfold str_or. rewrite most_common_nonempty.
  destruct (existsb nonempty (map entry_address (group_members k entries))) eqn:E.
  - apply Hall. now destruct (most_common_winner _ E) as [_ [Hin _]].
  - apply group_members_In in Hk.
    destruct (group_members k entries) as [|e ms]; [congruence|].
    simpl in E. apply orb_false_iff in E as [Ee _].
    assert (Ek : norm_address (entry_address e) = k) by (apply Hall; now left).
    destruct (entry_address e); [|discriminate].
    rewrite <- Ek, norm_address_nil, title_case_nil. apply norm_address_nil.
Qed.

Lemma clean_entries_keys entries :
  map (fun out => norm_address (ce_address out)) (clean_entries entries)
  = address_keys entries.
Proof.
  rewrite clean_entries_by_keys, map_map.
  rewrite <- (map_id (address_keys entries)) at 2.
  apply map_ext_in. intros k Hk. apply aggregate_address_key.
  now apply address_keys_In.
Qed.

(** X11. A community is cleaned into one entry for each address key
    of its entries, in the order the keys are first met: the entry of a
    key is the aggregate of the entries under that key.  So there are
    at most as many cleaned entries as entries, and none when there is
    no entry. *)
Theorem one_entry_per_address_key (entries : list (odict json)) :
  clean_entries entries
  = map (fun k => aggregate k (group_of k entries)) (address_keys entries) /\
  (length (clean_entries entries) <= length entries)%nat /\
  (clean_entries entries = [] <-> entries = []).
Proof.
  split; [apply clean_entries_by_keys|]. split.
  - rewrite clean_entries_by_keys, length_map. unfold address_keys.
    rewrite <- (length_map address_key entries). apply uniq_length.
  - rewrite clean_entries_by_keys. split.
    + intros H. destruct entries as [|e entries]; [reflexivity|].
      apply map_eq_nil in H. unfold address_keys, uniq_preserve in H.
      simpl in H. discriminate.
    + now intros ->.
Qed.

(** X12. No address is written twice: the address of each cleaned
    entry normalises to the key of its group, so the addresses of a
    cleaned community have distinct keys, the keys of the entries that
    were read. *)
Theorem cleaned_addresses_have_distinct_keys (entries : list (odict json)) :
  map (fun out => norm_address (ce_address out)) (clean_entries entries)
  = address_keys entries /\
  NoDup (map (fun out => norm_address (ce_address out)) (clean_entries entries)) /\
  (forall e, In e entries ->
     exists out, In out (clean_entries entries) /\
                 norm_address (ce_address out) = address_key e).
Proof.
  split; [apply clean_entries_keys|]. split.
  - rewrite clean_entries_keys. apply uniq_from_NoDup.
  - intros e He.
    assert (Hk : In (address_key e) (map (fun out => norm_address (ce_address out))
                                         (clean_entries entries))).
    { rewrite clean_entries_keys. apply address_keys_In. now apply in_map. }
    apply in_map_iff in Hk as [out [E Hout]]. now exists out.
Qed.
End OnePerAddressKey.

(** ** One community per community key *)

Section OnePerCommunityKey.
Context {U : UnicodeDB}.

Lemma bucket_step_keys_are b item :
  list_valued item = true ->
  keys (bucket_step b item) =
  if mem (norm_community (fst item)) (keys b) then keys b
  else keys b ++ [norm_community (fst item)].
Proof.
  destruct item as [n v]. unfold list_valued, bucket_step. simpl.
  destruct v; try discriminate. intros _.
  rewrite keys_update. apply keys_setdefault.
Qed.

Lemma bucket_step_skip b item : list_valued item = false -> bucket_step b item = b.
Proof.
  destruct item as [n v]. unfold list_valued, bucket_step. simpl.
  now destruct v.
Qed.

Lemma buckets_filter items b :
  fold_left bucket_step items b = fold_left bucket_step (filter list_valued items) b.
Proof.
  revert b. induction items as [|item items IH]; intros b; [reflexivity|].
  simpl. destruct (list_valued item) eqn:E; simpl; [apply IH|].
  rewrite bucket_step_skip by assumption. apply IH.
Qed.

Lemma buckets_keys_are items :
  keys (fold_left bucket_step items []) = community_keys items.
Proof.
  rewrite buckets_filter.
  rewrite (keys_fold bucket_step (fun item => norm_community (fst item)));
    [reflexivity|].
  intros m x Hx. apply bucket_step_keys_are. now apply filter_In in Hx.
Qed.

Lemma buckets_are items :
  fold_left bucket_step items [] =
  map (fun k => (k, merged_entries k items)) (community_keys items).
Proof.
  rewrite <- buckets_keys_are.
  apply odict_by_keys; [apply buckets_keys; split; constructor|].
  intros k Hk. rewrite buckets_get.
  destruct (has_bucket k items) eqn:E; [reflexivity|].
  exfalso. revert Hk. apply od_get_None. rewrite buckets_get. now rewrite E.
Qed.

Lemma clean_groups_by_keys items :
  clean_groups (JDict items) =
  Ok (map (fun k => (title_case_smart k, clean_entries (merged_entries k items)))
          (community_keys items)).
Proof. rewrite clean_groups_dict, buckets_are, map_map. reflexivity. Qed.

Lemma community_keys_shaped items : Forall (key_shaped is_az09) (community_keys items).
Proof.
  apply Forall_forall. intros k Hk. unfold community_keys, uniq_preserve in Hk.
  apply uniq_from_In in Hk as [Hk _]. apply in_map_iff in Hk as [item [<- _]].
  apply norm_community_shaped.
Qed.

Lemma community_keys_length items : (length (community_keys items) <= length items)%nat.
Proof.
  unfold community_keys, uniq_preserve.
  etransitivity; [apply uniq_length|]. rewrite length_map. apply filter_length_le.
Qed.

(** X13. A document that is a dictionary is cleaned, without error,
    into one community for each community key of its list-valued
    communities, in the order the keys are first met: the community of
    a key is written under the title-cased key and holds the cleaned
    entries of every community of that key.  The names written are
    distinct, each normalises back to its key, and there are at most as
    many as communities read. *)
Theorem one_community_per_community_key (items : odict json) :
  exists out,
    clean_groups (JDict items) = Ok out /\
    out = map (fun k => (title_case_smart k, clean_entries (merged_entries k items)))
              (community_keys items) /\
    NoDup (keys out) /\
    map norm_community (keys out) = community_keys items /\
    (length out <= length items)%nat.
Proof.
  eexists. split; [apply clean_groups_by_keys|]. split; [reflexivity|].
  unfold keys. rewrite map_map. simpl. split; [|split].
  - apply display_keys_NoDup; [apply uniq_from_NoDup | apply community_keys_shaped].
  - rewrite map_map. rewrite <- (map_id (community_keys items)) at 2.
    apply map_ext_in. intros k Hk. apply norm_community_title.
    pose proof (community_keys_shaped items) as H. rewrite Forall_forall in H. now apply H.
  - rewrite length_map. apply community_keys_length.
Qed.

(** A list of dictionaries keeps all its entries. *)
Lemma dict_entries_dicts es : dict_entries (map JDict es) = es.
Proof. induction es as [|e es IH]; [reflexivity|]. simpl. now rewrite IH. Qed.
End OnePerCommunityKey.

(** ** Malformed parts of a document *)

Section MalformedParts.
Context {U : UnicodeDB}.

Lemma list_valued_part items :
  filter list_valued (well_formed_part items) = well_formed_part items.
Proof.
  unfold well_formed_part. induction (filter list_valued items) as [|item l IH];
    [reflexivity|].
  cbn [map filter]. unfold list_valued at 1. cbn [snd contribution]. now rewrite IH.
Qed.

Lemma community_keys_part items :
  community_keys (well_formed_part items) = community_keys items.
Proof.
  unfold community_keys. rewrite list_valued_part. unfold well_formed_part.
  now rewrite map_map.
Qed.

Lemma merged_entries_part k items :
  merged_entries k (well_formed_part items) = merged_entries k items.
Proof.
  unfold merged_entries, well_formed_part.
  induction items as [|item items IH]; [reflexivity|].
  cbn [filter]. destruct (list_valued item) eqn:E; cbn [map flat_map fst snd]; rewrite IH.
  - f_equal. destruct (str_eqb (norm_community (fst item)) k); [|reflexivity].
    unfold entries_of at 1. cbn [contribution]. apply dict_entries_dicts.
  - unfold list_valued in E. unfold entries_of.
    destruct (contribution (snd item)); [discriminate|].
    now destruct (str_eqb (norm_community (fst item)) k).
Qed.

(** X14. What is malformed in a document is passed over, and changes
    nothing: a community whose value is no list, and an entry that is no
    dictionary, can be taken out of the document without any change to
    the result. *)
Theorem malformed_parts_are_ignored (items : odict json) :
  clean_groups (JDict items) = clean_groups (JDict (well_formed_part items)).
Proof.
  rewrite !clean_groups_by_keys, community_keys_part. f_equal.
  apply map_ext. intros k. now rewrite merged_entries_part.
Qed.
End MalformedParts.

(** ** Cleaning what has been cleaned *)

Lemma filter_flat (A : Type) (p : A -> bool) (l : list A) :
  filter p l = flat_map (fun y => if p y then [y] else []) l.
Proof.
  induction l as [|y l IH]; [reflexivity|].
  simpl. rewrite IH. now destruct (p y).
Qed.

Lemma flat_map_map_ext (A B C : Type) (g : A -> B) (F : B -> list C) (h : A -> list C) l :
  (forall x, In x l -> F (g x) = h x) -> flat_map F (map g l) = flat_map h l.
Proof.
  induction l as [|x l IH]; intros H; [reflexivity|].
  simpl. rewrite (H x) by now left. f_equal. apply IH. intros y Hy. apply H. now right.
Qed.

Lemma most_common_single a : nonempty a = true -> most_common [a] = a.
Proof.
  intros H. assert (E : existsb nonempty [a] = true) by (simpl; now rewrite H).
  destruct (most_common_winner [a] E) as [_ [[<- | []] _]]. reflexivity.
Qed.

Section Settled.
Context {U : UnicodeDB}.

Lemma entry_dict_address out : entry_address (entry_dict out) = clean_spaces (ce_address out).
Proof. reflexivity. Qed.

Lemma entry_dict_gate out : entry_gate (entry_dict out) = clean_spaces (ce_gate out).
Proof. reflexivity. Qed.

Lemma entry_dict_type out : entry_type (entry_dict out) = norm_type (ce_type out).
Proof. reflexivity. Qed.

Lemma unknown_category : In (lit "Unknown") categories.
Proof. now left. Qed.

(** What is written for an address group is settled. *)
Lemma aggregate_settled k entries :
  In k (map address_key entries) -> settled (aggregate k (group_of k entries)).
Proof.
  intros Hk. split; [|split].
  - simpl. unfold str_or. rewrite most_common_nonempty.
    destruct (existsb nonempty (map entry_address (group_members k entries))) eqn:E.
    + destruct (most_common_winner _ E) as [_ [Hin _]].
      apply in_map_iff in Hin as [e [<- _]]. apply clean_spaces_idem.
    + apply in_map_iff in Hk as [e [<- _]].
      now destruct (@title_case_clean U is_az09 (address_key e) az09_self
                      (norm_address_shaped _)).
  - exists (uniq_preserve (flat_map extract_gate_tokens (gates (group_of k entries)))).
    split; [apply uniq_from_NoDup|].
    split; [apply uniq_from_tokens, flat_map_tokens | reflexivity].
  - simpl. unfold str_or. rewrite most_common_nonempty.
    destruct (existsb nonempty (map entry_type (group_members k entries))) eqn:E.
    + destruct (most_common_winner _ E) as [_ [Hin _]].
      apply in_map_iff in Hin as [e [<- _]]. apply norm_type_idem.
    + apply categories_fixed, unknown_category.
Qed.

Lemma clean_entries_settled entries : Forall settled (clean_entries entries).
Proof.
  rewrite clean_entries_by_keys. apply Forall_forall. intros out Hout.
  apply in_map_iff in Hout as [k [<- Hk]].
  apply aggregate_settled. now apply address_keys_In.
Qed.

(** X15. Every entry written is settled: its address has single
    spaces and no white space at its ends, its gate is distinct tokens
    of digits joined by single spaces, and its type is not empty and is
    one the classifier gives back as it is. *)
Theorem cleaned_entries_are_settled (entries : list (odict json)) :
  Forall (fun out => settled out /\ nonempty (ce_type out) = true)
         (clean_entries entries).
Proof.
  pose proof (clean_entries_settled entries) as H.
  revert H. apply Forall_impl. intros out H. split; [exact H|].
  destruct H as [_ [_ <-]]. apply norm_type_nonempty.
Qed.

Lemma group_members_single es e :
  NoDup (map address_key es) -> In e es -> group_members (address_key e) es = [e].
Proof.
  intros Hnd Hin. unfold group_members. rewrite filter_flat.
  apply (flat_map_unique address_key (fun y => [y]) es e Hnd Hin).
Qed.

Lemma aggregate_single k e :
  aggregate k (extend empty_agg [e]) =
  {| ce_address := str_or (most_common [entry_address e]) (title_case_smart k);
     ce_gate := join (lit " ") (uniq_preserve (extract_gate_tokens (entry_gate e)));
     ce_type := str_or (most_common [entry_type e]) (lit "Unknown") |}.
Proof. unfold aggregate, extend. simpl. now rewrite app_nil_r. Qed.

Hypothesis digits_are_not_spaces : forall c, re_digit c = true -> py_isspace c = false.

Lemma digit_token_token t : digit_token t = true -> token py_isspace t = true.
Proof.
  unfold digit_token, token, sep_free. intros H. apply andb_true_iff in H as [-> H].
  simpl. revert H. apply forallb_imp. intros c Hc.
  now rewrite digits_are_not_spaces.
Qed.

(** A settled entry is cleaned into itself. *)
Lemma aggregate_settled_single out :
  settled out ->
  aggregate (address_key (entry_dict out)) (extend empty_agg [entry_dict out]) = out.
Proof.
  intros [Ha [[toks [Hnd [Ht Hg]]] Hty]].
  rewrite aggregate_single. unfold address_key.
  rewrite entry_dict_address, entry_dict_gate, entry_dict_type, Ha, Hty, Hg.
  rewrite lit_space, clean_spaces_tokens
    by (revert Ht; apply forallb_imp, digit_token_token).
  rewrite findall_join_tokens, uniq_NoDup_id by assumption.
  destruct out as [a g t]. simpl in *. f_equal.
  - unfold str_or. destruct a as [|c a].
    + simpl. now rewrite norm_address_nil, title_case_nil.
    + now rewrite most_common_single.
  - now rewrite Hg, lit_space.
  - unfold str_or. rewrite most_common_single; rewrite <- Hty; now rewrite norm_type_nonempty.
Qed.

Lemma clean_entries_fixed outs :
  Forall settled outs ->
  NoDup (map (fun out => norm_address (ce_address out)) outs) ->
  clean_entries (map entry_dict outs) = outs.
Proof.
  intros Hs Hnd. rewrite Forall_forall in Hs.
  assert (Hkeys : map address_key (map entry_dict outs)
                  = map (fun out => norm_address (ce_address out)) outs).
  { rewrite map_map. apply map_ext_in. intros out Hout. unfold address_key.
    rewrite entry_dict_address. now destruct (Hs out Hout) as [-> _]. }
  rewrite clean_entries_by_keys. unfold address_keys.
  rewrite uniq_NoDup_id by (now rewrite Hkeys). rewrite !map_map.
  transitivity (map (fun out : cleaned_entry => out) outs); [|apply map_id].
  apply map_ext_in. intros out Hout. unfold group_of.
  rewrite group_members_single;
    [now apply aggregate_settled_single, Hs | now rewrite Hkeys | now apply in_map].
Qed.

Lemma clean_entries_again entries :
  clean_entries (map entry_dict (clean_entries entries)) = clean_entries entries.
Proof.
  apply clean_entries_fixed; [apply clean_entries_settled|].
  rewrite clean_entries_keys. apply uniq_from_NoDup.
Qed.

Lemma dict_entries_written outs :
  dict_entries (map (fun e => JDict (entry_dict e)) outs) = map entry_dict outs.
Proof. induction outs as [|o outs IH]; [reflexivity|]. simpl. now rewrite IH. Qed.

(** Communities under the display names of distinct keys are cleaned
    into themselves when their entries are. *)
Lemma clean_groups_fixed ks (f : pystr -> list cleaned_entry) :
  NoDup ks -> Forall (key_shaped is_az09) ks ->
  (forall k, In k ks -> clean_entries (map entry_dict (f k)) = f k) ->
  clean_groups (groups_json (map (fun k => (title_case_smart k, f k)) ks))
  = Ok (map (fun k => (title_case_smart k, f k)) ks).
Proof.
  intros Hnd Hsh Hf. rewrite Forall_forall in Hsh.
  unfold groups_json. rewrite map_map. simpl.
  set (items := map _ ks).
  assert (Hkeys : community_keys items = ks).
  { unfold community_keys.
    replace (filter list_valued items) with items.
    - unfold items. rewrite map_map. simpl.
      rewrite (map_ext_in _ (fun k => k)), map_id; [now apply uniq_NoDup_id|].
      intros k Hk. now apply norm_community_title, Hsh.
    - unfold items. clear. induction ks as [|k ks IH]; [reflexivity|].
      cbn [map filter]. unfold list_valued at 1. cbn [snd contribution].
      now rewrite <- IH. }
  rewrite clean_groups_by_keys, Hkeys. f_equal.
  apply map_ext_in. intros k Hk. f_equal.
  unfold merged_entries, items.
  rewrite (flat_map_map_ext _ _ (fun k' => if str_eqb k' k
                                       then map entry_dict (f k') else [])).
  - rewrite (flat_map_unique (fun k' => k') (fun k' => map entry_dict (f k')) ks k)
      by (rewrite ?map_id; assumption).
    now apply Hf.
  - intros k' Hk'. cbn [fst snd]. rewrite norm_community_title by now apply Hsh.
    unfold entries_of. cbn [contribution]. now rewrite dict_entries_written.
Qed.

Lemma clean_groups_Ok g out :
  clean_groups g = Ok out -> exists items, clean_groups (JDict items) = Ok out.
Proof.
  intros H. unfold clean_groups in H.
  destruct (if truthy g then g else JDict []) as [| | | | | |items] eqn:E;
    try discriminate.
  exists items. unfold clean_groups. now destruct items.
Qed.

Lemma clean_groups_again g out :
  clean_groups g = Ok out -> clean_groups (groups_json out) = Ok out.
Proof.
  intros H. apply clean_groups_Ok in H as [items H].
  rewrite clean_groups_by_keys in H. injection H as <-.
  apply (clean_groups_fixed (fun k => clean_entries (merged_entries k items))).
  - apply uniq_from_NoDup.
  - apply community_keys_shaped.
  - intros k _. apply clean_entries_again.
Qed.
End Settled.

Section Again.
Context {U : UnicodeDB}.

Lemma process_again payload res :
  (forall c, re_digit c = true -> py_isspace c = false) ->
  process payload = Ok res -> process (payload_json res) = Ok res.
Proof.
  intros Hd H. unfold process in H. destruct payload as [| | | | | |top]; try discriminate.
  destruct (clean_groups (od_get_default (lit "groups") (JDict []) top)) as [cleaned|e] eqn:E;
    [|discriminate].
  injection H as <-. pose proof (@clean_groups_again U Hd _ _ E) as E'.
  change (match clean_groups (groups_json cleaned) with
          | Ok cleaned' =>
              Ok {| out_meta := od_get_default (lit "meta") (JDict []) top;
                    out_groups := cleaned' |}
          | Raise e => Raise e
          end
          = Ok {| out_meta := od_get_default (lit "meta") (JDict []) top;
                  out_groups := cleaned |}).
  now rewrite E'.
Qed.

(** X16. Cleaning is idempotent.  When digits are no white space (as
    in the Unicode database, where the digits are the decimal numbers
    and the white space is separators and controls), the document the
    program writes is cleaned into itself: its communities, read again
    as the [groups] of a document, give the same communities, and the
    whole output, read again as the input, gives the same output. *)
Theorem cleaning_is_idempotent (payload : json) (res : cleaned_payload) :
  (forall c, re_digit c = true -> py_isspace c = false) ->
  process payload = Ok res ->
  clean_groups (groups_json (out_groups res)) = Ok (out_groups res) /\
  process (payload_json res) = Ok res.
Proof.
  intros Hd H. split; [|exact (@process_again payload res Hd H)].
  unfold process in H. destruct payload as [| | | | | |top]; try discriminate.
  destruct (clean_groups (od_get_default (lit "groups") (JDict []) top)) as [cleaned|e] eqn:E;
    [|discriminate].
  injection H as <-. exact (@clean_groups_again U Hd _ _ E).
Qed.
End Again.

(** ** Evaluation on ASCII documents

    [ascii_eval] runs the merge engine on a concrete document under an
    arbitrary database: each call of a string function on an ASCII
    argument is replaced by its value at [ascii_db]. *)

Ltac closed_in U s := lazymatch s with context [U] => fail | _ => idtac end.

Ltac ascii_call U :=
  match goal with
  | |- context [@field U ?n ?e] =>
      closed_in U e;
      let s := eval vm_compute in (@py_str U (od_get_default (lit n) (JStr []) e)) in
      change (@field U n e) with (@clean_spaces U s)
  | |- context [@clean_spaces U ?s] =>
      closed_in U s; rewrite (@clean_spaces_ascii U s) by (vm_compute; reflexivity);
      let v := eval vm_compute in (@clean_spaces ascii_db s) in
      change (@clean_spaces ascii_db s) with v
  | |- context [@norm_community U ?s] =>
      closed_in U s; rewrite (@norm_community_ascii U s) by (vm_compute; reflexivity);
      let v := eval vm_compute in (@norm_community ascii_db s) in
      change (@norm_community ascii_db s) with v
  | |- context [@norm_address U ?s] =>
      closed_in U s; rewrite (@norm_address_ascii U s) by (vm_compute; reflexivity);
      let v := eval vm_compute in (@norm_address ascii_db s) in
      change (@norm_address ascii_db s) with v
  | |- context [@norm_type U ?s] =>
      closed_in U s; rewrite (@norm_type_ascii U s) by (vm_compute; reflexivity);
      let v := eval vm_compute in (@norm_type ascii_db s) in
      change (@norm_type ascii_db s) with v
  | |- context [@title_case_smart U ?s] =>
      closed_in U s; rewrite (@title_case_smart_ascii U s) by (vm_compute; reflexivity);
      let v := eval vm_compute in (@title_case_smart ascii_db s) in
      change (@title_case_smart ascii_db s) with v
  | |- context [@extract_gate_tokens U ?s] =>
      closed_in U s; rewrite (@extract_gate_tokens_ascii U s) by (vm_compute; reflexivity);
      let v := eval vm_compute in (@extract_gate_tokens ascii_db s) in
      change (@extract_gate_tokens ascii_db s) with v
  end.

Ltac ascii_eval U :=
  repeat (cbn -[clean_spaces norm_community norm_address norm_type title_case_smart
                extract_gate_tokens];
          first [ascii_call U | progress unfold aggregate]);
  cbn -[clean_spaces norm_community norm_address norm_type title_case_smart
        extract_gate_tokens].

Section Scenarios.
Context {U : UnicodeDB}.

(** C1. The end-to-end scenario: the two entries of "Oak Hills" share
    the address key "100 north main street" and become one entry, with
    the gate "1234 5678", the type "Apartments" and the first of the
    two raw addresses, which is one of the two contributed. *)
Theorem end_to_end_oak_hills :
  process oak_hills_doc =
  Ok {| out_meta := JDict [];
        out_groups :=
          [(lit "Oak Hills",
            [{| ce_address := lit "100 N Main St";
                ce_gate := lit "1234 5678";
                ce_type := lit "Apartments" |}])] |} /\
  In (lit "100 N Main St") [lit "100 N Main St"; lit "100 North Main Street"].
Proof.
  split; [|now left].
  unfold oak_hills_doc, raw_entry. ascii_eval U. reflexivity.
Qed.

Lemma int_gate_result :
  clean_groups int_gate_doc =
  Ok [(lit "Oak Hills",
       [{| ce_address := lit "100 N Main St";
           ce_gate := lit "1234";
           ce_type := lit "Apartments" |}])].
Proof. unfold int_gate_doc. ascii_eval U. reflexivity. Qed.

Lemma oak_spellings_result :
  clean_groups (JDict oak_spellings) =
  Ok [(lit "Oak Hills",
       [{| ce_address := lit "1 Elm St"; ce_gate := lit "11"; ce_type := lit "Residential" |};
        {| ce_address := lit "2 Elm St"; ce_gate := lit "22"; ce_type := lit "Residential" |}])].
Proof. unfold oak_spellings, raw_entry. ascii_eval U. reflexivity. Qed.

Lemma student_business_result : norm_type (lit "student business") = lit "Businesses".
Proof. now rewrite norm_type_ascii. Qed.

Example abbreviations_expand :
  norm_address (lit "123 N St") = norm_address (lit "123 North Street").
Proof.
  rewrite (norm_address_ascii (lit "123 N St")) by reflexivity.
  rewrite (norm_address_ascii (lit "123 North Street")) by reflexivity.
  vm_compute. reflexivity.
Qed.

Example community_key_ignores_case_and_punctuation :
  norm_community (lit "CAFE-VERDE") = norm_community (lit "  cafe   verde ").
Proof.
  rewrite (norm_community_ascii (lit "CAFE-VERDE")) by reflexivity.
  rewrite (norm_community_ascii (lit "  cafe   verde ")) by reflexivity.
  vm_compute. reflexivity.
Qed.

Lemma field_absent name e :
  od_get (lit name) e = None \/ od_get (lit name) e = Some (JStr []) -> field name e = [].
Proof. unfold field, od_get_default. now intros [-> | ->]. Qed.

Lemma field_present name e v :
  od_get (lit name) e = Some v -> field name e = clean_spaces (py_str v).
Proof. unfold field, od_get_default. now intros ->. Qed.

(** C3 (amended). A field that is missing or the empty string reads as
    the empty string, and a missing or empty type classifies as
    "Unknown"; a value that is no string is read through [str]: the
    integer 1234 as a gate reads "1234", null as an address reads
    "None".  Cleaning the groups of a mapping never raises. *)
Theorem fields_default_or_coerced :
  (forall name e,
      od_get (lit name) e = None \/ od_get (lit name) e = Some (JStr []) ->
      field name e = []) /\
  (forall e,
      od_get (lit "type") e = None \/ od_get (lit "type") e = Some (JStr []) ->
      entry_type e = lit "Unknown") /\
  (forall name e v, od_get (lit name) e = Some v -> field name e = clean_spaces (py_str v)) /\
  (forall e v, od_get (lit "type") e = Some v -> entry_type e = norm_type (py_str v)) /\
  field "gate" [(lit "gate", JInt 1234)] = lit "1234" /\
  field "address" [(lit "address", JNull)] = lit "None" /\
  (forall items, exists out, clean_groups (JDict items) = Ok out).
Proof.
  repeat split.
  - apply field_absent.
  - intros e H. unfold entry_type, od_get_default.
    destruct H as [-> | ->]; apply norm_type_nil.
  - apply field_present.
  - intros e v H. unfold entry_type, od_get_default. now rewrite H.
  - ascii_eval U. reflexivity.
  - ascii_eval U. reflexivity.
  - intros items. eexists. apply clean_groups_dict.
Qed.

(** C2 (amended). A document without [groups], or whose [groups] is
    falsy (null, false, zero, an empty string, list or mapping), has no
    communities and is no error; a [groups] that is truthy and no
    mapping raises [AttributeError]. *)
Theorem groups_missing_or_falsy (top : odict json) :
  let groups := od_get_default (lit "groups") (JDict []) top in
  let meta := od_get_default (lit "meta") (JDict []) top in
  (od_get (lit "groups") top = None -> truthy groups = false) /\
  (truthy groups = false ->
   process (JDict top) = Ok {| out_meta := meta; out_groups := [] |}) /\
  (truthy groups = true -> as_dict groups = None ->
   process (JDict top) = Raise AttributeError) /\
  process (JDict []) = Ok {| out_meta := JDict []; out_groups := [] |} /\
  process (JDict [(lit "groups", JNull)]) = Ok {| out_meta := JDict []; out_groups := [] |} /\
  process (JDict [(lit "groups", JList [])]) = Ok {| out_meta := JDict []; out_groups := [] |} /\
  process (JDict [(lit "groups", JStr (lit "x"))]) = Raise AttributeError.
Proof.
  cbv zeta. unfold process, clean_groups.
  split; [|split; [|split; [|repeat split]]].
  - unfold od_get_default. now intros ->.
  - now intros ->.
  - intros Ht Hd. rewrite Ht.
    destruct (od_get_default (lit "groups") (JDict []) top); try reflexivity.
    discriminate.
Qed.

(** C5. The address of an address group is the majority winner of its
    contributed addresses -- the most frequent non-empty string, the
    first met among the most frequent -- or, without a non-empty
    address, the title-cased address key; its type is the majority
    winner of the classified types, or "Unknown". *)
Theorem majority_vote_first_seen :
  (forall values,
      existsb nonempty values = true -> majority_winner values (most_common values)) /\
  (forall k a,
      ce_address (aggregate k a) =
      if existsb nonempty (addresses a) then most_common (addresses a)
      else title_case_smart k) /\
  (forall k a,
      ce_type (aggregate k a) =
      if existsb nonempty (types a) then most_common (types a) else lit "Unknown") /\
  (forall entries out,
      In out (clean_entries entries) ->
      exists k, out = aggregate k (group_of k entries) /\
                addresses (group_of k entries) = map entry_address (group_members k entries) /\
                types (group_of k entries) = map entry_type (group_members k entries)) /\
  most_common [lit "123 Main St"; lit "123 Main St"; lit "123 Main Street"]
  = lit "123 Main St" /\
  most_common [lit "123 Main Street"; lit "123 Main St"] = lit "123 Main Street".
Proof.
  split; [exact most_common_winner|].
  split; [|split; [|split; [|split; reflexivity]]].
  - intros k a. unfold aggregate, str_or. simpl.
    rewrite most_common_nonempty. now destruct (existsb nonempty (addresses a)).
  - intros k a. unfold aggregate, str_or. simpl.
    rewrite most_common_nonempty. now destruct (existsb nonempty (types a)).
  - intros entries out H. apply clean_entries_groups in H as [k [_ ->]].
    now exists k.
Qed.

(** C6. The tokens of a raw gate string are its maximal runs of digits
    from left to right; removing repeats keeps each token once, at its
    first position; the gate of an address group is the tokens of all
    its gate strings, in contribution order, without repeats, joined by
    single spaces. *)
Theorem gate_tokens_deduplicated_runs :
  (forall raw toks, digit_runs raw toks <-> toks = extract_gate_tokens raw) /\
  (forall items,
      NoDup (uniq_preserve items) /\
      (forall x, In x (uniq_preserve items) <-> In x items) /\
      StronglySorted lt (map (fun x => index_of x items) (uniq_preserve items))) /\
  uniq_preserve (extract_gate_tokens (lit "Gate: 0456, code 0456 / 0789"))
  = [lit "0456"; lit "0789"] /\
  (forall k a,
      ce_gate (aggregate k a) =
      join (lit " ") (uniq_preserve (flat_map extract_gate_tokens (gates a)))) /\
  (forall entries out,
      In out (clean_entries entries) ->
      exists k, out = aggregate k (group_of k entries) /\
                gates (group_of k entries) = map entry_gate (group_members k entries)).
Proof.
  split; [exact digit_runs_findall|].
  split.
  { intros items. split; [apply uniq_from_NoDup|]. split; [|apply uniq_from_sorted].
    intros x. unfold uniq_preserve. rewrite uniq_from_In. simpl. tauto. }
  split; [now rewrite extract_gate_tokens_ascii|].
  split; [reflexivity|].
  intros entries out H. apply clean_entries_groups in H as [k [_ ->]].
  now exists k.
Qed.

(** C4 (amended). The type is classified on its key, a string of
    lower-case letters in words separated by single spaces.  An empty
    key gives "Unknown".  Then, in this order: the apartment family
    gives "Apartments", the residential family "Residential", the
    business family "Businesses", the word "student" "Residential"; a
    key under no rule is echoed title-cased.  So "student business"
    is classified "Businesses". *)
Theorem type_rules_in_code_order (t : pystr) :
  let k := type_key t in
  key_shaped is_lower_az k /\
  (k = [] -> norm_type t = lit "Unknown") /\
  (k <> [] -> apartment_family k -> norm_type t = lit "Apartments") /\
  (k <> [] -> ~ apartment_family k -> residential_family k ->
   norm_type t = lit "Residential") /\
  (k <> [] -> ~ apartment_family k -> ~ residential_family k -> business_family k ->
   norm_type t = lit "Businesses") /\
  (k <> [] -> ~ apartment_family k -> ~ residential_family k -> ~ business_family k ->
   occurs_in (lit "student") k -> norm_type t = lit "Residential") /\
  (k <> [] -> ~ apartment_family k -> ~ residential_family k -> ~ business_family k ->
   ~ occurs_in (lit "student") k -> norm_type t = title_case_smart k) /\
  norm_type (lit "student business") = lit "Businesses" /\
  norm_type (lit "Gated Condo Complex") = lit "Gated Condo Complex".
Proof.
  cbv zeta. split; [apply type_key_shaped|].
  pose proof (norm_type_rules t) as R. cbv zeta in R.
  repeat split; try apply R.
  - apply student_business_result.
  - now rewrite norm_type_ascii.
Qed.
End Scenarios.

(** An accented name, under a database that knows the accent: the
    code points are those of "Caf", U+00E9 and " Verde". *)
Example cafe_verde :
  @norm_community accent_db [67; 97; 102; 233; 32; 86; 101; 114; 100; 101] = lit "cafe verde".
Proof. vm_compute. reflexivity. Qed.

(** ** Inputs on which the spec and the code part *)

(** C2, the claim fails: a [groups] that is a non-empty list is not
    taken for an empty mapping; under no database does the transform
    return a document. *)
Lemma groups_not_a_mapping_raises :
  ~ exists (U : UnicodeDB) (out : cleaned_payload), process groups_list_doc = Ok out.
Proof. intros [U [out H]]. discriminate H. Qed.

(** C3, the claim fails: the integer 1234 given as a gate is not read
    as the empty string; under no database is the gate of the output
    entry empty. *)
Lemma int_gate_contributes_token :
  ~ exists (U : UnicodeDB) (out : odict (list cleaned_entry)),
      clean_groups int_gate_doc = Ok out /\
      forall c es e, In (c, es) out -> In e es -> ce_gate e = [].
Proof.
  intros [U [out [H Hall]]]. rewrite int_gate_result in H. injection H as <-.
  specialize (Hall _ _ _ (or_introl eq_refl) (or_introl eq_refl)). discriminate Hall.
Qed.

(** C4, the claim fails: "student business" has both words and is not
    classified "Residential" under any database. *)
Lemma student_business_is_not_residential :
  ~ exists U : UnicodeDB, norm_type (lit "student business") = lit "Residential".
Proof. intros [U H]. rewrite student_business_result in H. discriminate H. Qed.

(** ** The theorems with hypotheses, at concrete inputs *)

Lemma communities_merge_witness :
  norm_community (lit "Oak Hills") = norm_community (lit "oak   hills") /\
  exists out,
    clean_groups (JDict oak_spellings) = Ok out /\
    NoDup (keys out) /\
    od_get (title_case_smart (norm_community (lit "Oak Hills"))) out =
    (if has_bucket (norm_community (lit "Oak Hills")) oak_spellings
     then Some (clean_entries
                  ([] ++ entries_of (JList [raw_entry "1 Elm St" "11" "home"]) ++
                   [] ++ entries_of (JList [raw_entry "2 Elm St" "22" "home"]) ++ []))
     else None) /\
    (contribution (JList [raw_entry "1 Elm St" "11" "home"]) <> None \/
     contribution (JList [raw_entry "2 Elm St" "22" "home"]) <> None ->
     has_bucket (norm_community (lit "Oak Hills")) oak_spellings = true).
Proof.
  split; [vm_compute; reflexivity|].
  apply (@communities_merge_across_spellings ascii_db [] [] []
           (lit "Oak Hills") (lit "oak   hills")
           (JList [raw_entry "1 Elm St" "11" "home"])
           (JList [raw_entry "2 Elm St" "22" "home"])).
  vm_compute. reflexivity.
Defined.

Lemma empty_community_witness :
  exists out,
    clean_groups (JDict [(lit "Vacant Lot", JList [JInt 7; JNull]);
                         (lit "Oak Hills", JList [raw_entry "1 Elm St" "11" "home"])]) = Ok out /\
    od_get (title_case_smart (norm_community (lit "Vacant Lot"))) out = Some [].
Proof.
  apply (@empty_community_is_kept ascii_db _ (lit "Vacant Lot") [JInt 7; JNull]).
  - repeat constructor; simpl; intuition discriminate.
  - now left.
  - reflexivity.
  - intros n v [H | [H | []]] E; injection H as <- <-; [reflexivity|].
    vm_compute in E. discriminate E.
Defined.

Lemma ascii_digits_are_not_spaces c : ascii_isdigit c = true -> ascii_isspace c = false.
Proof. intros H. char_cases. Qed.

Lemma community_key_of_ascii_text_witness :
  forallb is_ascii (lit "  Oak-Hills (NORTH) ") = true /\
  norm_community (lit "  Oak-Hills (NORTH) ")
  = join (lit " ") (runs is_az09 (map ascii_lower (lit "  Oak-Hills (NORTH) "))) /\
  norm_community (map ascii_upper (lit "  Oak-Hills (NORTH) "))
  = norm_community (lit "  Oak-Hills (NORTH) ") /\
  norm_community (map ascii_lower (lit "  Oak-Hills (NORTH) "))
  = norm_community (lit "  Oak-Hills (NORTH) ").
Proof.
  split; [reflexivity|].
  apply (@community_key_of_ascii_text ascii_db (lit "  Oak-Hills (NORTH) ")).
  reflexivity.
Defined.

Lemma cleaning_is_idempotent_witness :
  (forall c, re_digit c = true -> py_isspace c = false) /\
  exists res,
    process oak_hills_doc = Ok res /\
    clean_groups (groups_json (out_groups res)) = Ok (out_groups res) /\
    process (payload_json res) = Ok res.
Proof.
  split; [exact ascii_digits_are_not_spaces|].
  eexists. split; [vm_compute; reflexivity|].
  apply (@cleaning_is_idempotent ascii_db oak_hills_doc _ ascii_digits_are_not_spaces).
  vm_compute. reflexivity.
Defined.
